(** * MailDeck API: a shallow embedding of [api/index.js]

    The Express handlers of the MailDeck back end are embedded as programs
    over the two AWS clients they talk to (the S3 object store and the SES
    outbound service).  Pure JavaScript helpers (string methods, regular
    expressions, [Array.prototype.sort], [path.basename], [parseInt]) are
    embedded as executable functions. *)

From Stdlib Require Import ZArith Ascii String List Lia DecimalString DecimalNat DecimalFacts.
From stdpp Require Import gmap strings list sorting.

Open Scope string_scope.
Open Scope list_scope.

(** ** JavaScript strings

    A JavaScript string is a sequence of UTF-16 code units.  The embedding
    keeps the code units of the Latin-1 range (U+0000 .. U+00FF), one
    [ascii] each, so a [string] below is a JavaScript string all of whose
    code units are below 256. *)

Module JS.

(** [WhiteSpace] and [LineTerminator] of ECMAScript restricted to the
    Latin-1 range: TAB, LF, VT, FF, CR, SPACE and NBSP (U+00A0).  This is the
    class matched by [\s] and stripped by [String.prototype.trim]. *)
Definition isWhiteSpace (c : ascii) : bool :=
  let n := nat_of_ascii c in
  (Nat.eqb n 9 || Nat.eqb n 10 || Nat.eqb n 11 || Nat.eqb n 12 ||
   Nat.eqb n 13 || Nat.eqb n 32 || Nat.eqb n 160)%bool.

(** Truthiness of a possibly missing string: [undefined], [false] and the
    empty string are falsy. *)
Definition truthy (o : option string) : bool :=
  match o with
  | Some (String _ _) => true
  | _ => false
  end.

(** [a || b] where [a] may be missing and [b] is a string. *)
Definition or_else (a : option string) (b : string) : string :=
  match a with
  | Some (String c s) => String c s
  | _ => b
  end.

(** [a || b] where both may be missing. *)
Definition or_opt (a b : option string) : option string :=
  if truthy a then a else b.

(** [s.substring(0, n)]. *)
Definition substring0 (n : nat) (s : string) : string := substring 0 n s.

Fixpoint trimStart (s : string) : string :=
  match s with
  | String c s' => if isWhiteSpace c then trimStart s' else s
  | EmptyString => EmptyString
  end.

Fixpoint trimEnd (s : string) : string :=
  match s with
  | EmptyString => EmptyString
  | String c s' =>
      match trimEnd s' with
      | EmptyString => if isWhiteSpace c then EmptyString else String c EmptyString
      | t => String c t
      end
  end.

(** [s.trim()]. *)
Definition trim (s : string) : string := trimEnd (trimStart s).

(** *** Regular expressions

    The patterns of the source are sequences of literal characters and
    greedy repetitions of a character class.  A pattern is embedded in
    continuation-passing style as a backtracking matcher: applied to the
    rest of the input it answers the length of the match, or [None]. *)
Definition Matcher := string -> option nat.

Definition m_end : Matcher := fun _ => Some 0.

(** A literal: every character has to be there. *)
Fixpoint m_lit (l : string) (k : Matcher) (s : string) : option nat :=
  match l with
  | EmptyString => k s
  | String c l' =>
      match s with
      | String d s' => if Ascii.eqb c d then S <$> m_lit l' k s' else None
      | EmptyString => None
      end
  end.

(** [C*], greedy: take one more character of the class if the rest of the
    pattern still matches afterwards, otherwise give back and continue
    here. *)
Fixpoint m_star (p : ascii -> bool) (k : Matcher) (s : string) : option nat :=
  match s with
  | String c s' =>
      if p c then
        match m_star p k s' with
        | Some n => Some (S n)
        | None => k s
        end
      else k s
  | EmptyString => k s
  end.

(** [C+]. *)
Definition m_plus (p : ascii -> bool) (k : Matcher) (s : string) : option nat :=
  match s with
  | String c s' => if p c then S <$> m_star p k s' else None
  | EmptyString => None
  end.

(** [s.replace(/re/g, rep)] with a replacement free of [$] patterns: scan
    from left to right; at a position where the pattern matches, emit
    [rep] and continue behind the match (behind the next character when
    the match is empty); elsewhere copy the character.  [skip] counts the
    characters of the current match that are still to be dropped. *)
Fixpoint replace_from (m : Matcher) (rep : string) (skip : nat) (s : string) : string :=
  match s with
  | EmptyString =>
      match skip, m EmptyString with
      | O, Some _ => rep
      | _, _ => EmptyString
      end
  | String c s' =>
      match skip with
      | S n => replace_from m rep n s'
      | O =>
          match m s with
          | Some (S n) => rep +:+ replace_from m rep n s'
          | Some O => rep +:+ String c (replace_from m rep 0 s')
          | None => String c (replace_from m rep 0 s')
          end
      end
  end.

Definition replaceAll (m : Matcher) (rep : string) (s : string) : string :=
  replace_from m rep 0 s.

Definition notGt (c : ascii) : bool := negb (Ascii.eqb c ">").
Definition anyChar (_ : ascii) : bool := true.

(** [/<name[^>]*>.*<\/name>/gms]: the opening tag up to its first [>],
    then as much as possible up to a closing tag.  There is no [i] flag, so
    only the spelling of the pattern matches; with the [s] flag the dot
    also matches line terminators. *)
Definition re_block (openTag closeTag : string) : Matcher :=
  m_lit openTag (m_star notGt (m_lit ">" (m_star anyChar (m_lit closeTag m_end)))).

(** [/<style[^>]*>.*<\/style>/gms]. *)
Definition re_style : Matcher := re_block "<style" "</style>".

(** [/<script[^>]*>.*<\/script>/gms]. *)
Definition re_script : Matcher := re_block "<script" "</script>".

(** [/<[^>]*>/g]. *)
Definition re_tag : Matcher := m_lit "<" (m_star notGt (m_lit ">" m_end)).

(** [/\s+/g]. *)
Definition re_spaces : Matcher := m_plus isWhiteSpace m_end.

(** [s.split(',')]. *)
Fixpoint split_comma (s : string) : list string :=
  match s with
  | EmptyString => [EmptyString]
  | String c s' =>
      if Ascii.eqb c "," then EmptyString :: split_comma s'
      else match split_comma s' with
           | p :: ps => String c p :: ps
           | [] => [String c EmptyString]
           end
  end.

End JS.

(** The derivation of the plain text of an HTML body in [getEmailsFromS3]:
    [html.replace(style, '').replace(script, '').replace(tag, ' ')
         .replace(spaces, ' ').trim()], one definition per call. *)
Definition stripStyle (html : string) : string := JS.replaceAll JS.re_style "" html.
Definition stripScript (html : string) : string := JS.replaceAll JS.re_script "" html.
Definition stripTags (html : string) : string := JS.replaceAll JS.re_tag " " html.
Definition collapseSpaces (text : string) : string := JS.replaceAll JS.re_spaces " " text.

Definition htmlToText (html : string) : string :=
  JS.trim (collapseSpaces (stripTags (stripScript (stripStyle html)))).

(** ** [path.basename] (POSIX flavour of Node's [path] module)

    Node scans the path from its end: trailing separators are skipped,
    the first other character marks the end of the last component, and the
    next separator met marks its start.  The path with only separators, or
    no character at all, has the empty basename. *)
Module path.

Definition isSep (c : ascii) : bool := Ascii.eqb c "/".

Fixpoint skipSeps (l : list ascii) : list ascii :=
  match l with
  | c :: l' => if isSep c then skipSeps l' else l
  | [] => []
  end.

Fixpoint component (l : list ascii) : list ascii :=
  match l with
  | c :: l' => if isSep c then [] else c :: component l'
  | [] => []
  end.

Definition basename (p : string) : string :=
  string_of_list_ascii
    (rev (component (skipSeps (rev (list_ascii_of_string p))))).

End path.

(** ** [parseInt(s, 10)]

    Leading white space is skipped, one sign is read, then the longest run
    of decimal digits; without a digit the answer is [NaN], here [None].
    The code only uses the answer as an array index, so the rounding of
    very long digit strings to a double is left out: such a number is far
    beyond any array length either way. *)
Definition digitValue (c : ascii) : option Z :=
  let n := nat_of_ascii c in
  if (Nat.leb 48 n && Nat.leb n 57)%bool then Some (Z.of_nat (n - 48)) else None.

Fixpoint digitsFrom (acc : option Z) (s : string) : option Z :=
  match s with
  | String c s' =>
      match digitValue c with
      | Some d => digitsFrom (Some (10 * default 0%Z acc + d)%Z) s'
      | None => acc
      end
  | EmptyString => acc
  end.

Definition parseInt10 (s : string) : option Z :=
  match JS.trimStart s with
  | String "-" r => Z.opp <$> digitsFrom None r
  | String "+" r => digitsFrom None r
  | r => digitsFrom None r
  end.

(** [arr[n]] for a number [n]: [undefined] unless [n] is an index of the
    array; [NaN] names no element. *)
Definition arrayGet {A} (arr : list A) (n : option Z) : option A :=
  match n with
  | Some z => if (0 <=? z)%Z then arr !! Z.to_nat z else None
  | None => None
  end.

(** ** [Array.prototype.sort]

    ECMAScript requires the sort to be stable, and for a consistent
    comparator the stable sorted arrangement of an array is unique.  It is
    computed here by insertion: every element goes in front of the
    elements behind it that it does not have to follow. *)
Section Sort.
Context {A : Type} (cmp : A -> A -> Z).

Fixpoint sort_insert (x : A) (l : list A) : list A :=
  match l with
  | [] => [x]
  | y :: l' => if (cmp x y <=? 0)%Z then x :: l else y :: sort_insert x l'
  end.

Definition js_sort (l : list A) : list A := foldr sort_insert [] l.
End Sort.

(** [arr.slice(0, n)]. *)
Definition slice0 {A} (n : nat) (l : list A) : list A := take n l.

(** [Buffer.prototype.toString('base64')]. *)
Module Base64.

Definition alphabet : string :=
  "ABCDEFGHIJKLMNOPQRSTUVWXYZabcdefghijklmnopqrstuvwxyz0123456789+/".

Definition sextet (n : N) : ascii :=
  match String.get (N.to_nat (N.land n 63)) alphabet with
  | Some c => c
  | None => "="%char
  end.

Definition byte (c : ascii) : N := N_of_ascii c.

Fixpoint encode (s : string) : string :=
  match s with
  | String a (String b (String c r)) =>
      let n := (byte a * 65536 + byte b * 256 + byte c)%N in
      String (sextet (N.shiftr n 18)) (String (sextet (N.shiftr n 12))
        (String (sextet (N.shiftr n 6)) (String (sextet n) (encode r))))
  | String a (String b EmptyString) =>
      let n := (byte a * 65536 + byte b * 256)%N in
      String (sextet (N.shiftr n 18)) (String (sextet (N.shiftr n 12))
        (String (sextet (N.shiftr n 6)) "="))
  | String a EmptyString =>
      let n := (byte a * 65536)%N in
      String (sextet (N.shiftr n 18)) (String (sextet (N.shiftr n 12)) "==")
  | EmptyString => EmptyString
  end.

End Base64.

Definition numberToString (n : nat) : string :=
  NilEmpty.string_of_uint (Nat.to_uint n).

(** ** Results of awaited calls

    A promise either resolves to a value or rejects with an error; the
    handlers only ever read [err.message]. *)
Definition Error := string.

Inductive result (A : Type) : Type :=
| Ok (a : A)
| Err (e : Error).
Arguments Ok {A} a.
Arguments Err {A} e.

Definition isOk {A} (r : result A) : bool :=
  match r with Ok _ => true | Err _ => false end.

(** [Promise.all]: resolves to all the values when every promise resolves,
    rejects as soon as one rejects.  Of several rejections [Promise.all]
    reports the one that settles first in time; time is not part of the
    embedding, which reports the one of the earliest array element.  The
    handlers turn any of them into the same kind of response, and no
    property below depends on which of them is reported. *)
Fixpoint promiseAll {A} (l : list (result A)) : result (list A) :=
  match l with
  | [] => Ok []
  | Err e :: _ => Err e
  | Ok a :: l' =>
      match promiseAll l' with
      | Ok l'' => Ok (a :: l'')
      | Err e => Err e
      end
  end.

(** ** The AWS clients

    Both clients have one method, [send(command)].  A command carries its
    input and fixes the type of its output. *)
Module S3Object.
Record t := mk { Key : string; Size : Z; LastModified : Z }.
End S3Object.

Record ListObjectsV2Output := { Contents : option (list S3Object.t) }.

Record DeleteObjectsOutput :=
  { Deleted : list string; Errors : list (string * string) }.

Record SendEmailInput :=
  { Data : string;
    ToAddresses : list string;
    CcAddresses : list string;
    BccAddresses : list string;
    FromEmailAddress : string }.

Record SendEmailOutput := { MessageId : string }.

Inductive Command : Type -> Type :=
| ListObjectsV2Command (Bucket Prefix : string) (Delimiter : option string)
    : Command ListObjectsV2Output
| GetObjectCommand (Bucket Key : string) : Command string
| PutObjectCommand (Bucket Key Body : string) : Command unit
| DeleteObjectsCommand (Bucket : string) (Objects : list string)
    : Command DeleteObjectsOutput
| CopyObjectCommand (Bucket CopySource Key : string) : Command unit
| DeleteObjectCommand (Bucket Key : string) : Command unit
| SendEmailCommand (input : SendEmailInput) : Command SendEmailOutput.

(** An asynchronous computation: it is done, or it sends a command and
    goes on with the outcome. *)
Inductive Prog (A : Type) : Type :=
| Ret (a : A)
| Send {X : Type} (c : Command X) (k : result X -> Prog A).
Arguments Ret {A} a.
Arguments Send {A X} c k.

Fixpoint bind {A B} (p : Prog A) (f : A -> Prog B) : Prog B :=
  match p with
  | Ret a => f a
  | Send c k => Send c (fun r => bind (k r) f)
  end.

(** [await] of a promise inside an [async] function whose own outcome is a
    [result]: a rejection ends the function (or reaches its [catch]). *)
Definition bindOk {A B} (p : Prog (result A)) (f : A -> Prog (result B))
  : Prog (result B) :=
  bind p (fun r => match r with Ok a => f a | Err e => Ret (Err e) end).

Definition send {X} (c : Command X) : Prog (result X) := Send c Ret.

Declare Scope prog_scope.
Delimit Scope prog_scope with prog.
Notation "x <- p ;; q" := (bind p (fun x => q))
  (at level 100, p at next level, right associativity) : prog_scope.
Notation "'await' x <- p ;; q" := (bindOk p (fun x => q))
  (at level 100, x name, p at next level, right associativity) : prog_scope.
Notation "'await' ' pat <- p ;; q" := (bindOk p (fun x => match x with pat => q end))
  (at level 100, pat pattern, p at next level, right associativity) : prog_scope.

(** The promises of [arr.map(async ...)]: every callback is started, in
    array order, and each one settles on its own. *)
Fixpoint mapAsync {A B} (f : A -> Prog (result B)) (l : list A)
  : Prog (list (result B)) :=
  match l with
  | [] => Ret []
  | a :: l' =>
      (r <- f a ;;
       rs <- mapAsync f l' ;;
       Ret (r :: rs))%prog
  end.

(** What stands behind a client: some state, and an answer to every
    command. *)
Record Client (W : Type) :=
  { answer : forall X, Command X -> W -> result X * W }.
Arguments answer {W} _ {X} _ _.

Fixpoint run {W A} (cl : Client W) (p : Prog A) (w : W) : A * W :=
  match p with
  | Ret a => (a, w)
  | Send c k => let '(r, w') := answer cl c w in run cl (k r) w'
  end.

(** The commands a computation sends when it runs, in order. *)
Inductive Call : Type :=
| call {X : Type} (c : Command X).

Fixpoint trace {W A} (cl : Client W) (p : Prog A) (w : W) : list Call :=
  match p with
  | Ret _ => []
  | Send c k => let '(r, w') := answer cl c w in call c :: trace cl (k r) w'
  end.

(** ** Parsed mail (the part of mailparser's output the code reads) *)
Module Attachment.
Record t := mk
  { filename : option string;
    contentType : string;
    size : Z;
    content : string }.
End Attachment.

Module Parsed.
Record t := mk
  { text : option string;
    html : option string;
    textAsHtml : option string;
    from : option string;       (* [parsed.from?.text] *)
    to : option string;         (* [parsed.to?.text] *)
    subject : option string;
    date : option Z;
    headers : gmap string string; (* keyed by lower-cased header name *)
    attachments : list Attachment.t }.
End Parsed.

Module AttachmentInfo.
Record t := mk { filename : option string; size : Z; index : nat }.
End AttachmentInfo.

Module Email.
Record t := mk
  { id : string;
    from : string;
    to : string;
    sender : string;
    subject : string;
    date : Z;
    snippet : string;
    htmlBody : string;
    hasAttachments : bool;
    attachments : list AttachmentInfo.t }.
End Email.

Record MailboxView := { emails : list Email.t; totalCount : nat }.

(** ** HTTP responses

    [res.status(n).json(...)], [res.status(n).send(text)] and the download
    of an attachment ([res.setHeader] twice, then [res.send(content)]).
    [DispositionText] is a text sent after [Content-Disposition] has been
    set already: the header stays on the response. *)
Inductive Body : Type :=
| JsonMessage (message : string)
| JsonFailure (message detail : string)
| JsonSent (message messageId : string)
| JsonSuccess (success : bool) (message : string)
| JsonMailbox (view : MailboxView)
| TextBody (text : string)
| DispositionText (contentDisposition : string) (text : string)
| FileBody (contentDisposition contentType : string) (content : string).

(** [res.setHeader(name, value)] throws [ERR_INVALID_CHAR] when the value
    holds a character that Node does not allow in a header: anything but
    TAB, 0x20 to 0x7e and 0x80 to 0xff (code units above 0xff, which the
    strings of this development do not have, are refused as well). *)
Definition headerChar (c : ascii) : bool :=
  let n := nat_of_ascii c in
  Nat.eqb n 9 || (Nat.leb 32 n && Nat.leb n 126) || Nat.leb 128 n.

Fixpoint validHeaderValue (value : string) : bool :=
  match value with
  | EmptyString => true
  | String c rest => headerChar c && validHeaderValue rest
  end.

Record Response := { status : nat; body : Body }.

(** The bytes of an attachment a response hands to the caller. *)
Definition attachmentBytes (r : Response) : option string :=
  match body r with
  | FileBody _ _ content => Some content
  | _ => None
  end.

(** ** Requests *)
Module File.
Record t := mk { originalname : string; buffer : string; mimetype : string }.
End File.

Module SendEmailRequest.
Record t := mk
  { from : option string;
    to : option string;
    cc : option string;
    bcc : option string;
    subject : option string;
    html : option string;
    files : option (list File.t) }.
End SendEmailRequest.

Module DownloadQuery.
Record t := mk { emailId : option string; index : option string }.
End DownloadQuery.

Definition INBOX_PREFIX : string := "".
Definition SENT_PREFIX : string := "sent/".
Definition TRASH_PREFIX : string := "trash/".

Definition LF : string := String (ascii_of_nat 10) EmptyString.
Definition DQ : string := String (ascii_of_nat 34) EmptyString.

(** [getVerifiedSenders]: the hard-coded list. *)
Definition getVerifiedSenders : list string :=
  ["admin@oodac.com"; "feeback-spinfinity@oodac.com"].

(** [arr.includes(x)] on strings. *)
Definition includes (l : list string) (x : string) : bool :=
  existsb (String.eqb x) l.

(** The comparator of the listing,
    [(a, b) => new Date(b.LastModified) - new Date(a.LastModified)],
    on timestamps in milliseconds. *)
Definition byLastModifiedDesc (a b : S3Object.t) : Z :=
  (S3Object.LastModified b - S3Object.LastModified a)%Z.

(** The filter of the listing, [obj.Key !== prefix && obj.Size > 0]. *)
Definition isMessage (prefix : string) (obj : S3Object.t) : bool :=
  negb (String.eqb (S3Object.Key obj) prefix) && (0 <? S3Object.Size obj)%Z.

(** The objects a listing goes on with: not the prefix marker, not empty,
    most recent first, at most a hundred. *)
Definition selectObjects (prefix : string) (contents : list S3Object.t)
  : list S3Object.t :=
  slice0 100 (js_sort byLastModifiedDesc (List.filter (isMessage prefix) contents)).

(** The snippet source: the text body, or else the text derived from the
    HTML body. *)
Definition textSnippet (parsed : Parsed.t) : string :=
  let textSnippet := JS.or_else (Parsed.text parsed) "" in
  if negb (JS.truthy (Some textSnippet)) && JS.truthy (Parsed.html parsed)
  then htmlToText (default "" (Parsed.html parsed))
  else textSnippet.

(** The object literal a listing builds for one parsed message. *)
Definition toEmail (obj : S3Object.t) (parsed : Parsed.t) : Email.t :=
  let attachments := Parsed.attachments parsed in
  {| Email.id := S3Object.Key obj;
     Email.from := JS.or_else (Parsed.from parsed) "";
     Email.to := JS.or_else (Parsed.to parsed) "";
     Email.sender :=
       JS.or_else
         (JS.or_opt (Parsed.headers parsed !! "x-maildeck-sender")
                    (Parsed.from parsed)) "";
     Email.subject := JS.or_else (Parsed.subject parsed) "(no subject)";
     Email.date := default (S3Object.LastModified obj) (Parsed.date parsed);
     Email.snippet := JS.substring0 200 (textSnippet parsed);
     Email.htmlBody :=
       JS.or_else (JS.or_opt (Parsed.html parsed) (Parsed.textAsHtml parsed)) "";
     Email.hasAttachments := Nat.ltb 0 (length attachments);
     Email.attachments :=
       imap (fun index a =>
               {| AttachmentInfo.filename := Attachment.filename a;
                  AttachmentInfo.size := Attachment.size a;
                  AttachmentInfo.index := index |})
            attachments |}.

(** The raw message of [/send-email]. *)
Definition attachmentPart (file : File.t) : string :=
  "--boundary_12345" +:+ LF +:+
  "Content-Type: " +:+ File.mimetype file +:+ "; name=" +:+ DQ +:+
    File.originalname file +:+ DQ +:+ LF +:+
  "Content-Transfer-Encoding: base64" +:+ LF +:+
  "Content-Disposition: attachment; filename=" +:+ DQ +:+
    File.originalname file +:+ DQ +:+ LF +:+ LF +:+
  Base64.encode (File.buffer file) +:+ LF +:+ LF.

Definition buildRawEmail (from to : string) (cc : option string)
    (subject html : string) (attachments : list File.t) : string :=
  "From: " +:+ from +:+ LF +:+ "To: " +:+ to +:+ LF +:+
  (if JS.truthy cc then "Cc: " +:+ default "" cc +:+ LF else "") +:+
  "Subject: " +:+ subject +:+ LF +:+
  "X-MailDeck-Sender: " +:+ from +:+ LF +:+
  "MIME-Version: 1.0" +:+ LF +:+
  "Content-Type: multipart/mixed; boundary=" +:+ DQ +:+ "boundary_12345" +:+ DQ
    +:+ LF +:+ LF +:+
  "--boundary_12345" +:+ LF +:+
  "Content-Type: text/html; charset=UTF-8" +:+ LF +:+ LF +:+
  html +:+ LF +:+ LF +:+
  foldr (fun att rest => attachmentPart att +:+ rest) "" attachments +:+
  "--boundary_12345--".

(** [x ? x.split(',') : []]. *)
Definition addresses (x : option string) : list string :=
  if JS.truthy x then JS.split_comma (default "" x) else [].

(** The raw message and the command [/send-email] builds from a request
    whose required fields are there. *)
Definition rawEmailOf (req : SendEmailRequest.t) : string :=
  buildRawEmail
    (default "" (SendEmailRequest.from req)) (default "" (SendEmailRequest.to req))
    (SendEmailRequest.cc req)
    (default "" (SendEmailRequest.subject req)) (default "" (SendEmailRequest.html req))
    (default [] (SendEmailRequest.files req)).

Definition sendEmailInput (req : SendEmailRequest.t) : SendEmailInput :=
  {| Data := rawEmailOf req;
     ToAddresses := JS.split_comma (default "" (SendEmailRequest.to req));
     CcAddresses := addresses (SendEmailRequest.cc req);
     BccAddresses := addresses (SendEmailRequest.bcc req);
     FromEmailAddress := default "" (SendEmailRequest.from req) |}.

(** [!from || !to || !subject || !html]. *)
Definition missingFields (req : SendEmailRequest.t) : bool :=
  negb (JS.truthy (SendEmailRequest.from req) && JS.truthy (SendEmailRequest.to req)
        && JS.truthy (SendEmailRequest.subject req)
        && JS.truthy (SendEmailRequest.html req)).

(** The listing request of a folder ([listCmdParams]): the inbox is listed
    with a delimiter. *)
Definition listCommand (S3_BUCKET prefix : string) : Command ListObjectsV2Output :=
  ListObjectsV2Command S3_BUCKET prefix
    (if String.eqb prefix INBOX_PREFIX then Some "/" else None).

Section Handlers.
(** The bucket of the deployment, and mailparser's [simpleParser], which
    resolves to the parsed mail or rejects. *)
Variable S3_BUCKET : string.
Variable simpleParser : string -> result Parsed.t.

Local Open Scope prog_scope.

(** One callback of [objects.map(async (obj) => ...)]. *)
Definition fetchEmail (obj : S3Object.t) : Prog (result Email.t) :=
  await rawEmail <- send (GetObjectCommand S3_BUCKET (S3Object.Key obj)) ;;
  await parsed <- Ret (simpleParser rawEmail) ;;
  Ret (Ok (toEmail obj parsed)).

Definition getEmailsFromS3 (prefix : string) : Prog (result MailboxView) :=
  await listRes <- send (listCommand S3_BUCKET prefix) ;;
  let objects := selectObjects prefix (default [] (Contents listRes)) in
  let totalCount := length objects in
  settled <- mapAsync fetchEmail objects ;;
  await emails <- Ret (promiseAll settled) ;;
  Ret (Ok {| emails := emails; totalCount := totalCount |}).

(** [GET /inbox], [GET /sent], [GET /trash]. *)
Definition listRoute (prefix failure : string) : Prog Response :=
  r <- getEmailsFromS3 prefix ;;
  match r with
  | Ok view => Ret {| status := 200; body := JsonMailbox view |}
  | Err detail => Ret {| status := 500; body := JsonFailure failure detail |}
  end.

Definition getInbox : Prog Response := listRoute INBOX_PREFIX "Failed to load inbox".
Definition getSent : Prog Response := listRoute SENT_PREFIX "Failed to load sent items".
Definition getTrash : Prog Response := listRoute TRASH_PREFIX "Failed to load trash".

(** [POST /send-email]. *)
Definition sendEmail (req : SendEmailRequest.t) : Prog Response :=
  let allowedSenders := getVerifiedSenders in
  if missingFields req
  then Ret {| status := 400; body := JsonMessage "Missing required fields" |}
  else
    let from := default "" (SendEmailRequest.from req) in
    if negb (includes allowedSenders from)
    then Ret {| status := 403;
                body := JsonMessage
                  ("Sending from " +:+ from +:+ " is not permitted or verified.") |}
    else
      let rawEmail := rawEmailOf req in
      r <- (await info <- send (SendEmailCommand (sendEmailInput req)) ;;
            let sentEmailKey := SENT_PREFIX +:+ MessageId info in
            await _ <- send (PutObjectCommand S3_BUCKET sentEmailKey rawEmail) ;;
            Ret (Ok info)) ;;
      match r with
      | Ok info =>
          Ret {| status := 200; body := JsonSent "Email sent" (MessageId info) |}
      | Err detail =>
          Ret {| status := 500; body := JsonFailure "Failed to send email" detail |}
      end.

(** The loop of [POST /emails/move-to-trash]: copy, then delete, one id
    after the other; the first rejection leaves the loop. *)
Definition trashKey (id : string) : string := TRASH_PREFIX +:+ path.basename id.

Fixpoint moveEach (emailIds : list string) : Prog (result unit) :=
  match emailIds with
  | [] => Ret (Ok tt)
  | id :: rest =>
      let newKey := trashKey id in
      await _ <- send (CopyObjectCommand S3_BUCKET (S3_BUCKET +:+ "/" +:+ id) newKey) ;;
      await _ <- send (DeleteObjectCommand S3_BUCKET id) ;;
      moveEach rest
  end.

(** [emailIds] is [None] when the body has no array under that name. *)
Definition moveToTrash (emailIds : option (list string)) : Prog Response :=
  match emailIds with
  | None | Some [] =>
      Ret {| status := 400; body := JsonMessage "No email IDs provided" |}
  | Some emailIds =>
      r <- moveEach emailIds ;;
      match r with
      | Ok _ =>
          Ret {| status := 200;
                 body := JsonSuccess true
                   ("Moved " +:+ numberToString (length emailIds)
                    +:+ " email(s) to trash.") |}
      | Err detail =>
          Ret {| status := 500;
                 body := JsonFailure "Failed to move emails to trash" detail |}
      end
  end.

(** [POST /emails/delete-permanently]: the answer of the store is not
    looked at. *)
Definition deletePermanently (emailIds : option (list string)) : Prog Response :=
  match emailIds with
  | None | Some [] =>
      Ret {| status := 400; body := JsonMessage "No email IDs provided" |}
  | Some emailIds =>
      r <- send (DeleteObjectsCommand S3_BUCKET emailIds) ;;
      match r with
      | Ok _ =>
          Ret {| status := 200;
                 body := JsonSuccess true
                   ("Permanently deleted " +:+ numberToString (length emailIds)
                    +:+ " email(s).") |}
      | Err detail =>
          Ret {| status := 500;
                 body := JsonFailure "Failed to permanently delete emails" detail |}
      end
  end.

(** The value of [Content-Disposition]: a missing file name is printed by
    the template as [undefined]. *)
Definition contentDisposition (attachment : Attachment.t) : string :=
  "attachment; filename=" +:+ DQ +:+
  default "undefined" (Attachment.filename attachment) +:+ DQ.

(** The end of the [try] block of [GET /download-attachment], once the
    attachment is found: two calls of [res.setHeader], then [res.send].
    Either call of [setHeader] may throw, which the [catch] turns into a
    500; when the second one throws, the first header is set already. *)
Definition sendAttachment (attachment : Attachment.t) : Response :=
  if negb (validHeaderValue (contentDisposition attachment)) then
    {| status := 500; body := TextBody "Could not download attachment." |}
  else if negb (validHeaderValue (Attachment.contentType attachment)) then
    {| status := 500;
       body := DispositionText (contentDisposition attachment)
                 "Could not download attachment." |}
  else
    {| status := 200;
       body := FileBody (contentDisposition attachment)
                 (Attachment.contentType attachment)
                 (Attachment.content attachment) |}.

(** [GET /download-attachment]. *)
Definition downloadAttachment (query : DownloadQuery.t) : Prog Response :=
  match DownloadQuery.index query with
  | Some index =>
      if JS.truthy (DownloadQuery.emailId query) then
        let emailId := default "" (DownloadQuery.emailId query) in
        r <- (await rawEmail <- send (GetObjectCommand S3_BUCKET emailId) ;;
              await parsed <- Ret (simpleParser rawEmail) ;;
              Ret (Ok (arrayGet (Parsed.attachments parsed) (parseInt10 index)))) ;;
        match r with
        | Ok None =>
            Ret {| status := 404; body := TextBody "Attachment not found at that index." |}
        | Ok (Some attachment) => Ret (sendAttachment attachment)
        | Err _ =>
            Ret {| status := 500; body := TextBody "Could not download attachment." |}
        end
      else Ret {| status := 400; body := TextBody "Missing email ID or attachment index." |}
  | None => Ret {| status := 400; body := TextBody "Missing email ID or attachment index." |}
  end.

End Handlers.

(** ** An object store in memory

    The store and the outbound service are not code of the repository.
    For the claims about what ends up in the store they are modelled the
    way the specification describes them (section 2: a key/value object
    store with prefix listing, get, put, copy and batch delete, where an
    object is destroyed by a delete or when it is overwritten), with one
    bucket, a clock for the last-modified stamps, and two kinds of faults a
    test double would offer: commands that are rejected as a whole, and
    keys a batch delete cannot remove.  A copy is a read of the source key
    followed by a write of the destination key; a copy of an object onto
    its own key, which would change nothing, is refused as S3 refuses it
    (InvalidRequest). *)
Module Mem.

Record Object := { Body : string; Modified : Z }.

Record World :=
  { objects : gmap string Object;
    outbox : list SendEmailInput;
    now : Z }.

Record Faults :=
  { rejects : forall X, Command X -> option Error;
    undeletable : list string }.

Definition noFaults : Faults :=
  {| rejects := fun _ _ => None; undeletable := [] |}.

Definition noSuchBucket : Error := "The specified bucket does not exist".
Definition noSuchKey : Error := "The specified key does not exist.".
Definition copyOntoItself : Error :=
  "This copy request is illegal because it is trying to copy an object to itself without changing the object's metadata, storage class, website redirect location or encryption attributes.".

Fixpoint stripPrefix (p s : string) : option string :=
  match p with
  | EmptyString => Some s
  | String c p' =>
      match s with
      | String d s' => if Ascii.eqb c d then stripPrefix p' s' else None
      | EmptyString => None
      end
  end.

Definition byKey (a b : S3Object.t) : Z :=
  match String.compare (S3Object.Key a) (S3Object.Key b) with
  | Lt => (-1)%Z
  | Eq => 0%Z
  | Gt => 1%Z
  end.

(** The keys a listing reports: those that start with the prefix and, when
    a delimiter is given, do not contain it behind the prefix (such keys
    are rolled up into common prefixes).  At most a thousand, in key
    order. *)
Definition listed (prefix : string) (delimiter : option string) (key : string) : bool :=
  match stripPrefix prefix key with
  | Some rest =>
      match delimiter with
      | Some d => negb (bool_decide (is_Some (String.index 0 d rest)))
      | None => true
      end
  | None => false
  end.

Definition listObjects (prefix : string) (delimiter : option string) (w : World)
  : ListObjectsV2Output :=
  let all :=
    omap (fun '(key, o) =>
            if listed prefix delimiter key
            then Some (S3Object.mk key (Z.of_nat (String.length (Body o))) (Modified o))
            else None)
         (map_to_list (objects w)) in
  match take 1000 (js_sort byKey all) with
  | [] => {| Contents := None |}
  | l => {| Contents := Some l |}
  end.

Definition store (key body : string) (w : World) : World :=
  {| objects := <[key := {| Body := body; Modified := now w |}]> (objects w);
     outbox := outbox w;
     now := (now w + 1)%Z |}.

Definition remove (key : string) (w : World) : World :=
  {| objects := delete key (objects w); outbox := outbox w; now := now w |}.

Definition removable (f : Faults) (key : string) : bool :=
  negb (includes (undeletable f) key).

Definition removeAll (f : Faults) (keys : list string) (w : World) : World :=
  foldr remove w (List.filter (removable f) keys).

Definition inBucket {X} (bucket Bucket : string) (w : World)
    (r : result X * World) : result X * World :=
  if String.eqb Bucket bucket then r else (Err noSuchBucket, w).

Definition perform (f : Faults) (bucket : string) {X} (c : Command X) (w : World)
  : result X * World :=
  match c in Command X return result X * World with
  | ListObjectsV2Command Bucket Prefix Delimiter =>
      inBucket bucket Bucket w (Ok (listObjects Prefix Delimiter w), w)
  | GetObjectCommand Bucket Key =>
      inBucket bucket Bucket w
        (match objects w !! Key with
         | Some o => (Ok (Body o), w)
         | None => (Err noSuchKey, w)
         end)
  | PutObjectCommand Bucket Key Body =>
      inBucket bucket Bucket w (Ok tt, store Key Body w)
  | DeleteObjectsCommand Bucket Objects =>
      inBucket bucket Bucket w
        (Ok {| Deleted := List.filter (removable f) Objects;
               Errors := List.map (fun k => (k, "AccessDenied"))
                           (List.filter (fun k => negb (removable f k)) Objects) |},
         removeAll f Objects w)
  | CopyObjectCommand Bucket CopySource Key =>
      inBucket bucket Bucket w
        (match stripPrefix (bucket +:+ "/") CopySource with
         | Some source =>
             match objects w !! source with
             | Some o =>
                 if String.eqb source Key then (Err copyOntoItself, w)
                 else (Ok tt, store Key (Body o) w)
             | None => (Err noSuchKey, w)
             end
         | None => (Err noSuchBucket, w)
         end)
  | DeleteObjectCommand Bucket Key =>
      inBucket bucket Bucket w (Ok tt, remove Key w)
  | SendEmailCommand input =>
      (Ok {| MessageId := "msg-" +:+ numberToString (length (outbox w)) |},
       {| objects := objects w; outbox := outbox w ++ [input]; now := now w |})
  end.

Definition client (f : Faults) (bucket : string) : Client World :=
  {| answer := fun X c w =>
       match rejects f X c with
       | Some e => (Err e, w)
       | None => perform f bucket c w
       end |}.

End Mem.

(** ** Vocabulary of the properties *)

(** [a] is at least as recent as [b]. *)
Definition newestFirst (a b : S3Object.t) : Prop :=
  (S3Object.LastModified b <= S3Object.LastModified a)%Z.

(** The objects of a listing that are messages. *)
Definition eligible (prefix : string) (obj : S3Object.t) : Prop :=
  S3Object.Key obj <> prefix /\ (0 < S3Object.Size obj)%Z.

Definition eligibleObjects (prefix : string) (contents : list S3Object.t)
  : list S3Object.t :=
  List.filter (isMessage prefix) contents.

(** A name without a path separator. *)
Definition noSep (s : string) : bool :=
  forallb (fun c => negb (path.isSep c)) (list_ascii_of_string s).

(** [pat] is found at the start of [s]; [pat] is found somewhere in [s];
    every character of [s] is in the class [p]. *)
Fixpoint startsWith (pat s : string) : bool :=
  match pat with
  | EmptyString => true
  | String c pat' =>
      match s with
      | String d s' => Ascii.eqb c d && startsWith pat' s'
      | EmptyString => false
      end
  end.

Fixpoint contains (pat s : string) : bool :=
  startsWith pat s
  || match s with
     | String _ s' => contains pat s'
     | EmptyString => false
     end.

Fixpoint allChars (p : ascii -> bool) (s : string) : bool :=
  match s with
  | String c s' => p c && allChars p s'
  | EmptyString => true
  end.

(** No [<] with a [>] somewhere behind it. *)
Fixpoint tagFree (s : string) : bool :=
  match s with
  | String c s' =>
      (if Ascii.eqb c "<" then negb (contains ">" s') else true) && tagFree s'
  | EmptyString => true
  end.

(** The text does not begin with white space; does not end with it; has
    no white space but single spaces, each followed by something else. *)
Definition startsClean (s : string) : bool :=
  match s with
  | String c _ => negb (JS.isWhiteSpace c)
  | EmptyString => true
  end.

Fixpoint endsClean (s : string) : bool :=
  match s with
  | EmptyString => true
  | String c EmptyString => negb (JS.isWhiteSpace c)
  | String _ s' => endsClean s'
  end.

Fixpoint singleSpaced (s : string) : bool :=
  match s with
  | String c s' =>
      (if JS.isWhiteSpace c then Ascii.eqb c " " && startsClean s' else true)
      && singleSpaced s'
  | EmptyString => true
  end.

Fixpoint wsRun (s : string) : nat :=
  match s with
  | String c s' => if JS.isWhiteSpace c then S (wsRun s') else 0
  | EmptyString => 0
  end.

(** ** A small deployment for the examples *)
Module Sample.

Definition bucket : string := "maildeck".

Definition plain (raw : string) : Parsed.t :=
  {| Parsed.text := Some raw; Parsed.html := None; Parsed.textAsHtml := None;
     Parsed.from := Some "ann@example.org"; Parsed.to := Some "admin@oodac.com";
     Parsed.subject := None; Parsed.date := None;
     Parsed.headers := ∅; Parsed.attachments := [] |}.

(** A parsed message without a text body and with the HTML body [html]:
    the case the fallback of the snippet is written for. *)
Definition withoutText (html : string) : Parsed.t :=
  {| Parsed.text := None; Parsed.html := Some html; Parsed.textAsHtml := None;
     Parsed.from := Some "ann@example.org"; Parsed.to := Some "admin@oodac.com";
     Parsed.subject := Some "News"; Parsed.date := None;
     Parsed.headers := ∅; Parsed.attachments := [] |}.


Definition report : Attachment.t :=
  {| Attachment.filename := Some "report.pdf";
     Attachment.contentType := "application/pdf";
     Attachment.size := 4;
     Attachment.content := "%PDF" |}.

(** A stand-in for mailparser: one body it rejects, one message with an
    attachment, everything else a plain text message. *)
Definition parser (raw : string) : result Parsed.t :=
  if String.eqb raw "broken" then Err "Unexpected end of input"
  else if String.eqb raw "with report" then
    Ok {| Parsed.text := Some raw; Parsed.html := None; Parsed.textAsHtml := None;
          Parsed.from := Some "ann@example.org"; Parsed.to := None;
          Parsed.subject := Some "Report"; Parsed.date := None;
          Parsed.headers := ∅; Parsed.attachments := [report] |}
  else Ok (plain raw).

Definition world : Mem.World :=
  {| Mem.objects :=
       list_to_map
         [("key1", {| Mem.Body := "hello"; Mem.Modified := 5 |});
          ("key2", {| Mem.Body := "with report"; Mem.Modified := 7 |});
          ("empty", {| Mem.Body := ""; Mem.Modified := 8 |});
          ("sent/", {| Mem.Body := ""; Mem.Modified := 1 |});
          ("sent/mid1", {| Mem.Body := "first"; Mem.Modified := 9 |});
          ("sent/mid2", {| Mem.Body := "second"; Mem.Modified := 4 |});
          ("trash/x", {| Mem.Body := "old"; Mem.Modified := 3 |})];
     Mem.outbox := [];
     Mem.now := 10 |}.

Definition client : Client Mem.World := Mem.client Mem.noFaults bucket.

(** The same store with one more message, which the parser rejects. *)
Definition worldWithBroken : Mem.World :=
  Mem.store "key3" "broken" world.

(** A store that refuses every write of a new object. *)
Definition readOnly : Mem.Faults :=
  {| Mem.rejects := fun X c =>
       match c with
       | PutObjectCommand _ _ _ => Some "Access Denied"
       | _ => None
       end;
     Mem.undeletable := [] |}.

(** A store that fails to hand out one of the objects it lists. *)
Definition unreadable : Mem.Faults :=
  {| Mem.rejects := fun X c =>
       match c with
       | GetObjectCommand _ Key =>
           if String.eqb Key "key1" then Some "Internal Error" else None
       | _ => None
       end;
     Mem.undeletable := [] |}.

(** A store in which one sent message is protected against deletion. *)
Definition protected : Mem.Faults :=
  {| Mem.rejects := fun _ _ => None; Mem.undeletable := ["sent/mid2"] |}.

Definition request : SendEmailRequest.t :=
  {| SendEmailRequest.from := Some "admin@oodac.com";
     SendEmailRequest.to := Some "ann@example.org,bob@example.org";
     SendEmailRequest.cc := None;
     SendEmailRequest.bcc := None;
     SendEmailRequest.subject := Some "Hello";
     SendEmailRequest.html := Some "<p>Hi</p>";
     SendEmailRequest.files := None |}.

(** The same request from an address that is not on the list. *)
Definition foreignRequest : SendEmailRequest.t :=
  {| SendEmailRequest.from := Some "mallory@example.org";
     SendEmailRequest.to := Some "ann@example.org,bob@example.org";
     SendEmailRequest.cc := None;
     SendEmailRequest.bcc := None;
     SendEmailRequest.subject := Some "Hello";
     SendEmailRequest.html := Some "<p>Hi</p>";
     SendEmailRequest.files := None |}.

End Sample.

(** ** Access control: [POST /login] and the [authenticate] middleware

    The three settings come from the environment and may be missing.  The
    fields of a login body are strings or missing; [===] between such
    values is equality, and two missing values are equal. *)
Module LoginRequest.
Record t := mk { username : option string; password : option string }.
End LoginRequest.

Module LoginResponse.
Record t := mk
  { status : nat;
    success : bool;
    token : option string;
    message : option string }.
End LoginResponse.

Definition strictEq (a b : option string) : bool := bool_decide (a = b).

(** [s.substring(n, s.length)] for [n] within the string. *)
Definition substringFrom (n : nat) (s : string) : string :=
  substring n (String.length s - n) s.

Definition unauthorized : Response :=
  {| status := 401; body := JsonMessage "Unauthorized: Invalid or missing token" |}.

Section Access.
Variables APP_USER APP_PASSWORD AUTH_TOKEN : option string.

Definition login (req : LoginRequest.t) : LoginResponse.t :=
  if strictEq (LoginRequest.username req) APP_USER
     && strictEq (LoginRequest.password req) APP_PASSWORD
  then {| LoginResponse.status := 200; LoginResponse.success := true;
          LoginResponse.token := AUTH_TOKEN; LoginResponse.message := None |}
  else {| LoginResponse.status := 401; LoginResponse.success := false;
          LoginResponse.token := None;
          LoginResponse.message := Some "Invalid credentials" |}.

(** [true] stands for the call of [next()]. *)
Definition authenticate (authorization : option string) : bool :=
  match authorization with
  | Some authHeader =>
      JS.truthy authorization
      && startsWith "Bearer " authHeader
      && strictEq (Some (substringFrom 7 authHeader)) AUTH_TOKEN
  | None => false
  end.

(** A route registered as [app.get(path, authenticate, handler)]. *)
Definition protect (authorization : option string) (handler : Prog Response)
  : Prog Response :=
  if authenticate authorization then handler else Ret unauthorized.

End Access.

(** The response that hands out an attachment. *)
Definition fileResponse (attachment : Attachment.t) : Response :=
  {| status := 200;
     body := FileBody
       ("attachment; filename=" +:+ DQ +:+
        default "undefined" (Attachment.filename attachment) +:+ DQ)
       (Attachment.contentType attachment)
       (Attachment.content attachment) |}.

(** The file name and the content type of the attachment can be set as
    header values. *)
Definition headerSafe (attachment : Attachment.t) : bool :=
  validHeaderValue (default "undefined" (Attachment.filename attachment))
  && validHeaderValue (Attachment.contentType attachment).

(** [arr.join(',')], the inverse of [split(',')]. *)
Fixpoint joinComma (l : list string) : string :=
  match l with
  | [] => EmptyString
  | [x] => x
  | x :: l' => x +:+ "," +:+ joinComma l'
  end.

(** The two commands of one round. *)
Definition moveCommands (bucket id : string) : list Call :=
  [call (CopyObjectCommand bucket (bucket +:+ "/" +:+ id)
           (TRASH_PREFIX +:+ path.basename id));
   call (DeleteObjectCommand bucket id)].

(** ** More stores for the examples *)
Module Scenario.

(** An outbound service that takes no message. *)
Definition throttled : Mem.Faults :=
  {| Mem.rejects := fun X c =>
       match c with
       | SendEmailCommand _ => Some "Throttling"
       | _ => None
       end;
     Mem.undeletable := [] |}.

(** A store in which single objects cannot be deleted. *)
Definition noDelete : Mem.Faults :=
  {| Mem.rejects := fun X c =>
       match c with
       | DeleteObjectCommand _ _ => Some "Access Denied"
       | _ => None
       end;
     Mem.undeletable := [] |}.

(** The sample store with a sent copy of the inbox message [key1]. *)
Definition worldWithCopy : Mem.World :=
  Mem.store "sent/key1" "hello again" Sample.world.

(** The sample store with a message filed under [inbox/]. *)
Definition worldWithFolder : Mem.World :=
  Mem.store "inbox/key1" "filed" Sample.world.

End Scenario.

(** * Properties *)

(** ** The helpers on examples *)

Example htmlToText_ex1 :
  htmlToText "<style>.x{}</style><p>Hello&nbsp;World</p>" = "Hello&nbsp;World".
Proof. reflexivity. Qed.

(** The dot-star of the block patterns is greedy: it runs to the last
    closing tag. *)
Example stripStyle_greedy :
  stripStyle "a<style>b</style>c<style>d</style>e" = "ae".
Proof. reflexivity. Qed.

(** A no-break space (U+00A0) is white space for [\s] and for [trim]. *)
Example collapseSpaces_nbsp :
  JS.trim (collapseSpaces (String (ascii_of_nat 160) "a" +:+ LF +:+ " b "))
  = "a b".
Proof. reflexivity. Qed.

Example split_comma_ex1 : JS.split_comma "a@x.org,b@y.org" = ["a@x.org"; "b@y.org"].
Proof. reflexivity. Qed.

Example basename_ex1 : path.basename "inbox/key1" = "key1".
Proof. reflexivity. Qed.

Example basename_ex2 : path.basename "a/b//" = "b".
Proof. reflexivity. Qed.

Example basename_ex3 : path.basename "///" = "".
Proof. reflexivity. Qed.

Example parseInt_ex1 : parseInt10 "  12px" = Some 12%Z.
Proof. reflexivity. Qed.

Example parseInt_ex2 : parseInt10 "-3" = Some (-3)%Z.
Proof. reflexivity. Qed.

Example parseInt_ex3 : parseInt10 "abc" = None.
Proof. reflexivity. Qed.

Example base64_ex1 : Base64.encode "Man" = "TWFu".
Proof. reflexivity. Qed.

Example base64_ex2 : Base64.encode "Ma" = "TWE=".
Proof. reflexivity. Qed.

Example base64_ex3 : Base64.encode "hello" = "aGVsbG8=".
Proof. reflexivity. Qed.

(** The sort is stable: objects with the same stamp keep their order. *)
Example js_sort_stable :
  js_sort byLastModifiedDesc
    [S3Object.mk "a" 1 5; S3Object.mk "b" 1 7; S3Object.mk "c" 1 5]
  = [S3Object.mk "b" 1 7; S3Object.mk "a" 1 5; S3Object.mk "c" 1 5].
Proof. reflexivity. Qed.

(** ** Running computations *)
Section Running.
Context {W : Type} (cl : Client W).

Lemma run_bind {A B} (p : Prog A) (f : A -> Prog B) (w : W) :
  run cl (bind p f) w = run cl (f (run cl p w).1) (run cl p w).2.
Proof.
  revert w. induction p as [a | X c k IH]; intros w; simpl; [done |].
  destruct (answer cl c w) as [r w1]. apply IH.
Qed.

Lemma trace_bind {A B} (p : Prog A) (f : A -> Prog B) (w : W) :
  trace cl (bind p f) w
  = trace cl p w ++ trace cl (f (run cl p w).1) (run cl p w).2.
Proof.
  revert w. induction p as [a | X c k IH]; intros w; simpl; [done |].
  destruct (answer cl c w) as [r w1]. simpl. by rewrite IH.
Qed.

Lemma run_bindOk {A B} (p : Prog (result A)) (f : A -> Prog (result B)) (w : W) :
  run cl (bindOk p f) w
  = match (run cl p w).1 with
    | Ok a => run cl (f a) (run cl p w).2
    | Err e => (Err e, (run cl p w).2)
    end.
Proof. unfold bindOk. rewrite run_bind. by destruct (run cl p w).1. Qed.

Lemma run_send {X} (c : Command X) (w : W) : run cl (send c) w = answer cl c w.
Proof. simpl. by destruct (answer cl c w). Qed.

Lemma run_mapAsync_cons {A B} (f : A -> Prog (result B)) a l (w : W) :
  run cl (mapAsync f (a :: l)) w
  = ((run cl (f a) w).1 :: (run cl (mapAsync f l) (run cl (f a) w).2).1,
     (run cl (mapAsync f l) (run cl (f a) w).2).2).
Proof. simpl. by rewrite !run_bind. Qed.

Lemma run_mapAsync_length {A B} (f : A -> Prog (result B)) l (w : W) :
  length (run cl (mapAsync f l) w).1 = length l.
Proof.
  revert w. induction l as [| a l IH]; intros w; [done |].
  rewrite run_mapAsync_cons. simpl. by rewrite IH.
Qed.
End Running.

Lemma promiseAll_Ok {A} (l : list (result A)) (vs : list A) :
  promiseAll l = Ok vs <-> l = List.map Ok vs.
Proof.
  revert vs. induction l as [| [a | e] l IH]; intros vs; simpl.
  - split; [intros [= <-]; done | by destruct vs].
  - destruct (promiseAll l) as [vs' |] eqn:E.
    + split.
      * intros [= <-]. simpl. f_equal. by apply IH.
      * destruct vs as [| v vs]; [done |]. intros [= -> Hl].
        apply IH in Hl. by simplify_eq.
    + split; [done |]. destruct vs as [| v vs]; [done |]. intros [= -> Hl].
      apply IH in Hl. done.
  - split; [done | by destruct vs].
Qed.

(** ** Sorting *)
Section SortFacts.
Context {A : Type} (cmp : A -> A -> Z) (R : relation A).
Hypothesis cmp_le : forall x y, (cmp x y <= 0)%Z -> R x y.
Hypothesis cmp_gt : forall x y, (0 < cmp x y)%Z -> R y x.
Hypothesis R_trans : Transitive R.

Lemma sort_insert_perm x l : sort_insert cmp x l ≡ₚ x :: l.
Proof.
  induction l as [| y l IH]; simpl; [done |].
  destruct (cmp x y <=? 0)%Z; [done |].
  rewrite IH. apply Permutation_swap.
Qed.

Lemma js_sort_perm l : js_sort cmp l ≡ₚ l.
Proof.
  induction l as [| x l IH]; simpl; [done |].
  rewrite sort_insert_perm. by rewrite IH.
Qed.

Lemma sort_insert_sorted x l :
  StronglySorted R l -> StronglySorted R (sort_insert cmp x l).
Proof.
  induction 1 as [| y l Hl IH Hy]; simpl.
  - repeat constructor.
  - destruct (Z.leb_spec (cmp x y) 0) as [Hle | Hgt].
    + constructor; [by constructor |].
      constructor; [by apply cmp_le |].
      eapply Forall_impl; [exact Hy |]. intros z Hz.
      etrans; [by apply cmp_le | done].
    + constructor; [done |].
      rewrite sort_insert_perm. constructor; [by apply cmp_gt | done].
Qed.

Lemma js_sort_sorted l : StronglySorted R (js_sort cmp l).
Proof.
  induction l as [| x l IH]; simpl; [constructor |].
  by apply sort_insert_sorted.
Qed.
End SortFacts.

Lemma selectObjects_sorted prefix contents :
  StronglySorted newestFirst (selectObjects prefix contents).
Proof.
  unfold selectObjects, slice0.
  eapply (StronglySorted_app_1_l _ _ (drop 100 _)).
  rewrite take_drop.
  apply js_sort_sorted; unfold newestFirst, byLastModifiedDesc.
  - intros x y. lia.
  - intros x y. lia.
  - intros x y z. lia.
Qed.

Lemma elem_of_eligible prefix contents obj :
  obj ∈ eligibleObjects prefix contents <-> obj ∈ contents /\ eligible prefix obj.
Proof.
  unfold eligibleObjects, isMessage.
  rewrite !list_elem_of_In, filter_In. unfold eligible.
  rewrite andb_true_iff, negb_true_iff, String.eqb_neq, Z.ltb_lt. done.
Qed.

Lemma selectObjects_eq prefix contents :
  selectObjects prefix contents
  = take 100 (js_sort byLastModifiedDesc (eligibleObjects prefix contents)).
Proof. reflexivity. Qed.

Lemma selectObjects_elem prefix contents obj :
  obj ∈ selectObjects prefix contents -> obj ∈ contents /\ eligible prefix obj.
Proof.
  rewrite selectObjects_eq. intros H.
  apply elem_of_eligible. rewrite <- (js_sort_perm byLastModifiedDesc).
  rewrite <- (take_drop 100 (js_sort _ _)). apply elem_of_app. by left.
Qed.

Lemma selectObjects_length prefix contents :
  length (selectObjects prefix contents)
  = Nat.min 100 (length (eligibleObjects prefix contents)).
Proof.
  rewrite selectObjects_eq, length_take.
  by rewrite (Permutation_length (js_sort_perm byLastModifiedDesc _)).
Qed.

(** Truncation keeps the most recent objects: what is left out is no more
    recent than anything kept. *)
Lemma selectObjects_most_recent prefix contents obj :
  obj ∈ contents -> eligible prefix obj ->
  obj ∈ selectObjects prefix contents
  \/ (length (selectObjects prefix contents) = 100
      /\ forall kept, kept ∈ selectObjects prefix contents -> newestFirst kept obj).
Proof.
  intros Hin Hel.
  assert (Hs : obj ∈ js_sort byLastModifiedDesc (eligibleObjects prefix contents)).
  { rewrite js_sort_perm. by apply elem_of_eligible. }
  pose proof (selectObjects_sorted prefix contents) as Hsorted.
  pose proof (js_sort_sorted byLastModifiedDesc newestFirst) as Hall.
  rewrite selectObjects_eq in *.
  set (L := js_sort byLastModifiedDesc (eligibleObjects prefix contents)) in *.
  rewrite <- (take_drop 100 L) in Hs. apply elem_of_app in Hs as [Hs | Hs]; [by left |].
  right. split.
  - rewrite length_take. destruct (decide (100 <= length L)) as [| Hlt]; [lia |].
    rewrite drop_ge in Hs by lia. by apply elem_of_nil in Hs.
  - intros kept Hkept.
    eapply (StronglySorted_app_1_elem_of newestFirst (take 100 L) (drop 100 L)); [| done..].
    rewrite take_drop. apply Hall; unfold newestFirst, byLastModifiedDesc.
    + intros x y. lia.
    + intros x y. lia.
    + intros x y z. lia.
Qed.

(** ** The mailbox listing *)
Section ListingFacts.
Context {W : Type} (cl : Client W).
Variable S3_BUCKET : string.
Variable simpleParser : string -> result Parsed.t.

Local Abbreviation fetch := (fetchEmail S3_BUCKET simpleParser).
Local Abbreviation listing := (getEmailsFromS3 S3_BUCKET simpleParser).

Lemma run_fetchEmail obj (w : W) :
  run cl (fetch obj) w
  = (match (answer cl (GetObjectCommand S3_BUCKET (S3Object.Key obj)) w).1 with
     | Ok rawEmail =>
         match simpleParser rawEmail with
         | Ok parsed => Ok (toEmail obj parsed)
         | Err e => Err e
         end
     | Err e => Err e
     end,
     (answer cl (GetObjectCommand S3_BUCKET (S3Object.Key obj)) w).2).
Proof.
  unfold fetchEmail. rewrite run_bindOk, run_send.
  destruct (answer cl _ w) as [[raw | e] w1]; simpl; [| done].
  by destruct (simpleParser raw).
Qed.

Lemma run_getEmailsFromS3 prefix (w : W) :
  run cl (listing prefix) w
  = match answer cl (listCommand S3_BUCKET prefix) w with
    | (Ok listRes, w1) =>
        let objects := selectObjects prefix (default [] (Contents listRes)) in
        let settled := run cl (mapAsync fetch objects) w1 in
        (match promiseAll settled.1 with
         | Ok emails => Ok {| emails := emails; totalCount := length objects |}
         | Err e => Err e
         end, settled.2)
    | (Err e, w1) => (Err e, w1)
    end.
Proof.
  unfold getEmailsFromS3. rewrite run_bindOk, run_send.
  destruct (answer cl (listCommand S3_BUCKET prefix) w) as [[listRes | e] w1]; simpl; [| done].
  rewrite run_bind. simpl.
  by destruct (promiseAll _).
Qed.

(** Every settled callback that resolved carries the key of its object. *)
Lemma fetched_ids objs (w : W) :
  Forall2 (fun obj r => forall email, r = Ok email -> Email.id email = S3Object.Key obj)
    objs (run cl (mapAsync fetch objs) w).1.
Proof.
  revert w. induction objs as [| obj objs IH]; intros w; [constructor |].
  rewrite run_mapAsync_cons. cbn [fst snd]. constructor; [| apply IH].
  rewrite run_fetchEmail. cbn [fst snd]. intros email.
  destruct (answer cl _ w).1 as [raw |]; [| done].
  destruct (simpleParser raw); [| done]. by intros [= <-].
Qed.

Lemma resolved_ids objs (emails : list Email.t) :
  Forall2 (fun obj r => forall email, r = Ok email -> Email.id email = S3Object.Key obj)
    objs (List.map Ok emails) ->
  List.map Email.id emails = List.map S3Object.Key objs.
Proof.
  revert objs. induction emails as [| e emails IH]; intros objs H; inversion H; subst.
  - done.
  - simpl. f_equal; [by eauto | by apply IH].
Qed.

(** When every callback resolves, so does the listing. *)
Lemma all_fetched objs (w : W) :
  (forall obj w0, obj ∈ objs -> isOk (run cl (fetch obj) w0).1 = true) ->
  exists emails, promiseAll (run cl (mapAsync fetch objs) w).1 = Ok emails.
Proof.
  revert w. induction objs as [| obj objs IH]; intros w Hok; [by eexists |].
  rewrite run_mapAsync_cons. cbn [fst snd].
  pose proof (Hok obj w ltac:(left)) as H1.
  destruct (run cl (fetch obj) w) as [[email | e] w1]; [| done]. cbn [fst snd promiseAll].
  destruct (IH w1) as [emails ->]; [| by eexists].
  intros o w0 Ho. apply Hok. by right.
Qed.

(** One callback that rejects makes [Promise.all] reject. *)
Lemma one_rejected objs (w : W) obj :
  obj ∈ objs ->
  (forall w0, isOk (run cl (fetch obj) w0).1 = false) ->
  exists e, promiseAll (run cl (mapAsync fetch objs) w).1 = Err e.
Proof.
  intros Hin Hbad. revert w.
  induction objs as [| o objs IH]; intros w; [by apply elem_of_nil in Hin |].
  rewrite run_mapAsync_cons. cbn [fst snd].
  destruct (run cl (fetch o) w) as [[email | e] w1] eqn:E; cbn [fst snd promiseAll]; [| by eexists].
  apply elem_of_cons in Hin as [-> | Hin].
  - specialize (Hbad w). by rewrite E in Hbad.
  - destruct (IH Hin w1) as [e ->]. by eexists.
Qed.
End ListingFacts.

(** C1.  Whatever the store answers to the listing request, a mailbox view
    returned for a folder prefix follows the selected objects one by one:
    these are sorted by descending last-modified stamp, are at most a
    hundred, are objects of the listing other than the prefix marker and
    with a positive size, and are the most recent such objects;
    [totalCount] is the number of messages in the view, which is the number
    of eligible objects cut off at 100.  Such a view is returned whenever
    every selected object is fetched and parsed. *)
Theorem listFolder_view {W} (cl : Client W) (S3_BUCKET : string)
    (simpleParser : string -> result Parsed.t) (prefix : string) (w w1 : W)
    (listRes : ListObjectsV2Output) :
  answer cl (listCommand S3_BUCKET prefix) w = (Ok listRes, w1) ->
  let contents := default [] (Contents listRes) in
  let objects := selectObjects prefix contents in
  ((forall obj w0, obj ∈ objects ->
      isOk (run cl (fetchEmail S3_BUCKET simpleParser obj) w0).1 = true) ->
   exists view, (run cl (getEmailsFromS3 S3_BUCKET simpleParser prefix) w).1 = Ok view)
  /\ (forall view,
        (run cl (getEmailsFromS3 S3_BUCKET simpleParser prefix) w).1 = Ok view ->
        List.map Email.id (emails view) = List.map S3Object.Key objects
        /\ StronglySorted newestFirst objects
        /\ length (emails view) <= 100
        /\ (forall obj, obj ∈ objects ->
              obj ∈ contents /\ S3Object.Key obj <> prefix /\ (0 < S3Object.Size obj)%Z)
        /\ (forall obj, obj ∈ contents -> eligible prefix obj ->
              obj ∈ objects
              \/ (length objects = 100
                  /\ forall kept, kept ∈ objects -> newestFirst kept obj))
        /\ totalCount view = length (emails view)
        /\ totalCount view = Nat.min 100 (length (eligibleObjects prefix contents))).
Proof.
  intros Hlist contents objects.
  rewrite run_getEmailsFromS3, Hlist. cbn [fst snd]. fold contents objects.
  split.
  - intros Hok. destruct (all_fetched cl S3_BUCKET simpleParser objects w1 Hok) as [es ->].
    by eexists.
  - intros view Hview.
    destruct (promiseAll _) as [es |] eqn:Hall; [| done].
    injection Hview as <-. cbn [emails totalCount].
    apply promiseAll_Ok in Hall.
    pose proof (fetched_ids cl S3_BUCKET simpleParser objects w1) as Hids.
    rewrite Hall in Hids.
    assert (Hlen : length es = length objects).
    { rewrite <- (length_map Ok es), <- Hall. apply run_mapAsync_length. }
    split; [by apply resolved_ids |].
    split; [apply selectObjects_sorted |].
    split; [rewrite Hlen; unfold objects; rewrite selectObjects_length; lia |].
    split; [apply selectObjects_elem |].
    split; [apply selectObjects_most_recent |].
    split; [done |]. apply selectObjects_length.
Qed.

Lemma listFolder_view_witness :
  exists listRes view,
    answer Sample.client (listCommand Sample.bucket "") Sample.world
      = (Ok listRes, Sample.world)
    /\ (run Sample.client (getEmailsFromS3 Sample.bucket Sample.parser "") Sample.world).1
       = Ok view
    /\ List.map Email.id (emails view) = ["key2"; "key1"]
    /\ length (emails view) <= 100
    /\ totalCount view = 2.
Proof.
  eexists _, _.
  split; [vm_compute; reflexivity |].
  split; [vm_compute; reflexivity |].
  pose proof (listFolder_view Sample.client Sample.bucket Sample.parser ""
                Sample.world Sample.world _ eq_refl) as [_ H].
  specialize (H _ eq_refl) as (Hids & _ & Hlen & _ & _ & _ & Htotal).
  split; [exact Hids |]. split; [exact Hlen | exact Htotal].
Defined.

(** ** Failures during a listing *)
Lemma run_listRoute {W} (cl : Client W) S3_BUCKET simpleParser prefix failure (w : W) :
  run cl (listRoute S3_BUCKET simpleParser prefix failure) w
  = (match (run cl (getEmailsFromS3 S3_BUCKET simpleParser prefix) w).1 with
     | Ok view => {| status := 200; body := JsonMailbox view |}
     | Err detail => {| status := 500; body := JsonFailure failure detail |}
     end,
     (run cl (getEmailsFromS3 S3_BUCKET simpleParser prefix) w).2).
Proof.
  unfold listRoute. rewrite run_bind.
  by destruct (run cl (getEmailsFromS3 _ _ _) w) as [[view | e] w'].
Qed.

(** C2, as the code has it.  A listing is all or nothing: it rejects when
    the listing request is rejected, and it also rejects, and the route
    answers 500, when the fetch or the parse of any one selected object
    fails; a view is returned only when every selected object was fetched
    and parsed. *)
Theorem listing_all_or_nothing {W} (cl : Client W) (S3_BUCKET : string)
    (simpleParser : string -> result Parsed.t) (prefix failure : string) (w : W) :
  (forall e w1,
      answer cl (listCommand S3_BUCKET prefix) w = (Err e, w1) ->
      (run cl (getEmailsFromS3 S3_BUCKET simpleParser prefix) w).1 = Err e)
  /\ (forall listRes w1 obj,
        answer cl (listCommand S3_BUCKET prefix) w = (Ok listRes, w1) ->
        obj ∈ selectObjects prefix (default [] (Contents listRes)) ->
        (forall w0, isOk (run cl (fetchEmail S3_BUCKET simpleParser obj) w0).1 = false) ->
        exists e,
          (run cl (getEmailsFromS3 S3_BUCKET simpleParser prefix) w).1 = Err e
          /\ (run cl (listRoute S3_BUCKET simpleParser prefix failure) w).1
             = {| status := 500; body := JsonFailure failure e |})
  /\ (forall view,
        (run cl (getEmailsFromS3 S3_BUCKET simpleParser prefix) w).1 = Ok view ->
        exists listRes w1,
          answer cl (listCommand S3_BUCKET prefix) w = (Ok listRes, w1)
          /\ (run cl (mapAsync (fetchEmail S3_BUCKET simpleParser)
                        (selectObjects prefix (default [] (Contents listRes)))) w1).1
             = List.map Ok (emails view)).
Proof.
  rewrite run_listRoute, run_getEmailsFromS3.
  destruct (answer cl (listCommand S3_BUCKET prefix) w) as [[listRes | e0] w1].
  - split; [done |]. cbn zeta. split.
    + intros ? ? obj [= <- <-] Hin Hbad.
      destruct (one_rejected cl S3_BUCKET simpleParser _ w1 obj Hin Hbad) as [e ->].
      by exists e.
    + intros view Hview. exists listRes, w1. split; [done |].
      cbn [fst] in Hview.
      destruct (promiseAll _) as [es |] eqn:Hall; [| done].
      injection Hview as <-. by apply promiseAll_Ok.
  - split; [by intros ? ? [= <- <-] |]. split; [done |]. done.
Qed.

Lemma listing_all_or_nothing_witness :
  exists e,
    (run (Mem.client Sample.unreadable Sample.bucket)
         (getEmailsFromS3 Sample.bucket Sample.parser "") Sample.world).1
      = Err e
    /\ (run (Mem.client Sample.unreadable Sample.bucket)
            (getInbox Sample.bucket Sample.parser) Sample.world).1
       = {| status := 500; body := JsonFailure "Failed to load inbox" e |}.
Proof.
  pose proof (listing_all_or_nothing (Mem.client Sample.unreadable Sample.bucket)
                Sample.bucket Sample.parser "" "Failed to load inbox" Sample.world)
    as (_ & H & _).
  refine (H _ _ (S3Object.mk "key1" 5 5) eq_refl _ _).
  - vm_compute. apply list_elem_of_In. simpl. tauto.
  - intros w0. reflexivity.
Defined.

(** C2, as stated, fails: the listing request succeeds and two messages are
    selected; one of them is fetched and parsed, the parse of the other one
    fails; no view is returned, the route answers 500. *)
Lemma listing_aborts_on_one_bad_message :
  let cl := Sample.client in
  let w := Sample.worldWithBroken in
  let good := S3Object.mk "key2" 11 7 in
  let bad := S3Object.mk "key3" 6 10 in
  (exists listRes,
      answer cl (listCommand Sample.bucket "") w = (Ok listRes, w)
      /\ selectObjects "" (default [] (Contents listRes))
         = [bad; good; S3Object.mk "key1" 5 5])
  /\ isOk (run cl (fetchEmail Sample.bucket Sample.parser good) w).1 = true
  /\ (run cl (fetchEmail Sample.bucket Sample.parser bad) w).1
     = Err "Unexpected end of input"
  /\ (run cl (getEmailsFromS3 Sample.bucket Sample.parser "") w).1
     = Err "Unexpected end of input"
  /\ (run cl (getInbox Sample.bucket Sample.parser) w).1
     = {| status := 500;
          body := JsonFailure "Failed to load inbox" "Unexpected end of input" |}.
Proof.
  cbn zeta. split; [eexists; split; vm_compute; reflexivity |].
  repeat split; vm_compute; reflexivity.
Qed.

(** ** Sending *)
Section TraceFacts.
Context {W : Type} (cl : Client W).

Lemma trace_send {X} (c : Command X) (w : W) : trace cl (send c) w = [call c].
Proof. simpl. by destruct (answer cl c w). Qed.

Lemma trace_bindOk {A B} (p : Prog (result A)) (f : A -> Prog (result B)) (w : W) :
  trace cl (bindOk p f) w
  = trace cl p w ++ match (run cl p w).1 with
                    | Ok a => trace cl (f a) (run cl p w).2
                    | Err _ => []
                    end.
Proof. unfold bindOk. rewrite trace_bind. by destruct (run cl p w).1. Qed.
End TraceFacts.

Lemma includes_spec (l : list string) (x : string) : includes l x = true <-> x ∈ l.
Proof.
  unfold includes. rewrite existsb_exists, list_elem_of_In. split.
  - intros (y & Hy & ->%String.eqb_eq). done.
  - intros H. exists x. by rewrite String.eqb_refl.
Qed.

(** What [/send-email] does with a request that passes both checks. *)
Lemma run_sendEmail {W} (cl : Client W) S3_BUCKET req (w : W) :
  missingFields req = false ->
  includes getVerifiedSenders (default "" (SendEmailRequest.from req)) = true ->
  run cl (sendEmail S3_BUCKET req) w
  = match answer cl (SendEmailCommand (sendEmailInput req)) w with
    | (Ok info, w1) =>
        match answer cl (PutObjectCommand S3_BUCKET (SENT_PREFIX +:+ MessageId info)
                           (rawEmailOf req)) w1 with
        | (Ok _, w2) =>
            ({| status := 200; body := JsonSent "Email sent" (MessageId info) |}, w2)
        | (Err detail, w2) =>
            ({| status := 500; body := JsonFailure "Failed to send email" detail |}, w2)
        end
    | (Err detail, w1) =>
        ({| status := 500; body := JsonFailure "Failed to send email" detail |}, w1)
    end.
Proof.
  intros Hfields Hallowed. unfold sendEmail. rewrite Hfields, Hallowed. cbn [negb].
  rewrite run_bind, run_bindOk, run_send.
  destruct (answer cl (SendEmailCommand _) w) as [[info | e] w1]; cbn [fst snd]; [| done].
  rewrite run_bindOk, run_send.
  by destruct (answer cl (PutObjectCommand _ _ _) w1) as [[[] | e] w2].
Qed.

(** C3, as the code has it.  For a request that passes validation and is
    dispatched, a failure to store the raw message under [sent/] is
    reported to the caller as a failed send: status 500, "Failed to send
    email", with the error of the store; the message has been dispatched
    all the same. *)
Theorem send_reports_failed_persistence {W} (cl : Client W) (S3_BUCKET : string)
    (req : SendEmailRequest.t) (w w1 w2 : W) (info : SendEmailOutput) (e : Error) :
  missingFields req = false ->
  default "" (SendEmailRequest.from req) ∈ getVerifiedSenders ->
  answer cl (SendEmailCommand (sendEmailInput req)) w = (Ok info, w1) ->
  answer cl (PutObjectCommand S3_BUCKET (SENT_PREFIX +:+ MessageId info) (rawEmailOf req)) w1
    = (Err e, w2) ->
  run cl (sendEmail S3_BUCKET req) w
    = ({| status := 500; body := JsonFailure "Failed to send email" e |}, w2)
  /\ trace cl (sendEmail S3_BUCKET req) w
     = [call (SendEmailCommand (sendEmailInput req));
        call (PutObjectCommand S3_BUCKET (SENT_PREFIX +:+ MessageId info) (rawEmailOf req))].
Proof.
  intros Hfields Hallowed%includes_spec Hses Hput. split.
  - by rewrite run_sendEmail, Hses, Hput.
  - unfold sendEmail. rewrite Hfields, Hallowed. cbn [negb].
    rewrite trace_bind, trace_bindOk, trace_send, !run_bindOk, !run_send, !Hses.
    cbn [fst snd].
    rewrite trace_bindOk, trace_send, !run_bindOk, !run_send, !Hput.
    cbn [fst snd trace]. done.
Qed.

Lemma send_reports_failed_persistence_witness :
  run (Mem.client Sample.readOnly Sample.bucket)
      (sendEmail Sample.bucket Sample.request) Sample.world
  = ({| status := 500; body := JsonFailure "Failed to send email" "Access Denied" |},
     {| Mem.objects := Mem.objects Sample.world;
        Mem.outbox := [sendEmailInput Sample.request];
        Mem.now := 10 |}).
Proof.
  refine (proj1 (send_reports_failed_persistence
                   (Mem.client Sample.readOnly Sample.bucket) Sample.bucket
                   Sample.request Sample.world _ _ {| MessageId := "msg-0" |}
                   "Access Denied" _ _ _ _)).
  - reflexivity.
  - apply list_elem_of_In. simpl. tauto.
  - reflexivity.
  - reflexivity.
Defined.

(** C3, as stated, fails: the request is valid, the outbound service takes
    the message and assigns it an id, the store refuses the copy for the
    sent folder, and the caller is told that sending failed. *)
Lemma send_failure_after_dispatch :
  let cl := Mem.client Sample.readOnly Sample.bucket in
  let outcome := run cl (sendEmail Sample.bucket Sample.request) Sample.world in
  missingFields Sample.request = false
  /\ includes getVerifiedSenders "admin@oodac.com" = true
  /\ (answer cl (SendEmailCommand (sendEmailInput Sample.request)) Sample.world).1
     = Ok {| MessageId := "msg-0" |}
  /\ Mem.outbox outcome.2 = [sendEmailInput Sample.request]
  /\ outcome.1
     = {| status := 500; body := JsonFailure "Failed to send email" "Access Denied" |}
  /\ outcome.1 <> {| status := 200; body := JsonSent "Email sent" "msg-0" |}.
Proof.
  cbn zeta. repeat split; try reflexivity.
  intros H. discriminate H.
Qed.

(** C6.  A request with all four required fields whose [from] is not on
    the list of allowed senders is answered 403 without any command being
    sent: nothing is dispatched to the outbound service and nothing is
    written to the store, whatever stands behind the clients. *)
Theorem send_from_unlisted_sender (S3_BUCKET : string) (req : SendEmailRequest.t)
    (from : string) :
  SendEmailRequest.from req = Some from ->
  missingFields req = false ->
  from ∉ getVerifiedSenders ->
  let forbidden :=
    {| status := 403;
       body := JsonMessage ("Sending from " +:+ from +:+ " is not permitted or verified.") |} in
  sendEmail S3_BUCKET req = Ret forbidden
  /\ forall W (cl : Client W) (w : W),
       run cl (sendEmail S3_BUCKET req) w = (forbidden, w)
       /\ trace cl (sendEmail S3_BUCKET req) w = [].
Proof.
  intros Hfrom Hfields Hnot forbidden.
  assert (Heq : sendEmail S3_BUCKET req = Ret forbidden).
  { unfold sendEmail. rewrite Hfields, Hfrom.
    change (default "" (Some from)) with from.
    destruct (includes getVerifiedSenders from) eqn:E; cbn [negb]; [| done].
    exfalso. apply Hnot. by apply includes_spec. }
  split; [done |]. intros W cl w. by rewrite Heq.
Qed.

Lemma send_from_unlisted_sender_witness :
  sendEmail Sample.bucket Sample.foreignRequest
  = Ret {| status := 403;
           body := JsonMessage
             "Sending from mallory@example.org is not permitted or verified." |}.
Proof.
  refine (proj1 (send_from_unlisted_sender Sample.bucket Sample.foreignRequest
                   "mallory@example.org" eq_refl eq_refl _)).
  rewrite <- includes_spec. vm_compute. discriminate.
Defined.

(** ** Permanent deletion *)

(** C4, as the code has it.  For a non-empty list of keys the route
    reports full success whenever the batch request itself is answered,
    whatever that answer says about single keys; only a rejected request
    is reported as a failure. *)
Theorem delete_ignores_key_errors {W} (cl : Client W) (S3_BUCKET : string)
    (emailIds : list string) (w : W) :
  emailIds <> [] ->
  (forall out w',
      answer cl (DeleteObjectsCommand S3_BUCKET emailIds) w = (Ok out, w') ->
      run cl (deletePermanently S3_BUCKET (Some emailIds)) w
      = ({| status := 200;
            body := JsonSuccess true
              ("Permanently deleted " +:+ numberToString (length emailIds)
               +:+ " email(s).") |}, w'))
  /\ (forall e w',
        answer cl (DeleteObjectsCommand S3_BUCKET emailIds) w = (Err e, w') ->
        run cl (deletePermanently S3_BUCKET (Some emailIds)) w
        = ({| status := 500;
              body := JsonFailure "Failed to permanently delete emails" e |}, w')).
Proof.
  intros Hne. destruct emailIds as [| id ids]; [done |].
  unfold deletePermanently. rewrite run_bind, run_send.
  split; intros ? ? ->; done.
Qed.

Lemma delete_ignores_key_errors_witness :
  run (Mem.client Sample.protected Sample.bucket)
      (deletePermanently Sample.bucket (Some ["sent/mid1"; "sent/mid2"])) Sample.world
  = ({| status := 200; body := JsonSuccess true "Permanently deleted 2 email(s)." |},
     Mem.removeAll Sample.protected ["sent/mid1"; "sent/mid2"] Sample.world).
Proof.
  refine (proj1 (delete_ignores_key_errors
                   (Mem.client Sample.protected Sample.bucket) Sample.bucket
                   ["sent/mid1"; "sent/mid2"] Sample.world _) _ _ eq_refl).
  discriminate.
Defined.

(** C4, as stated, fails: of two keys the store deletes one and reports an
    error for the other one; the route answers that both were deleted. *)
Lemma delete_reports_full_success :
  let cl := Mem.client Sample.protected Sample.bucket in
  let ids := ["sent/mid1"; "sent/mid2"] in
  let outcome := run cl (deletePermanently Sample.bucket (Some ids)) Sample.world in
  (answer cl (DeleteObjectsCommand Sample.bucket ids) Sample.world).1
    = Ok {| Deleted := ["sent/mid1"]; Errors := [("sent/mid2", "AccessDenied")] |}
  /\ Mem.objects outcome.2 !! "sent/mid1" = None
  /\ Mem.objects outcome.2 !! "sent/mid2" = Some {| Mem.Body := "second"; Mem.Modified := 4 |}
  /\ outcome.1
     = {| status := 200; body := JsonSuccess true "Permanently deleted 2 email(s)." |}.
Proof. cbn zeta. repeat split; vm_compute; reflexivity. Qed.

(** ** Attachments *)

(** C9.  When the message is fetched and parsed and the index is a number
    at or beyond the number of its attachments, the route answers 404 and
    the response carries no attachment bytes. *)
Theorem attachment_index_out_of_range {W} (cl : Client W) (S3_BUCKET : string)
    (simpleParser : string -> result Parsed.t) (emailId index rawEmail : string)
    (parsed : Parsed.t) (n : Z) (w w1 : W) :
  emailId <> "" ->
  answer cl (GetObjectCommand S3_BUCKET emailId) w = (Ok rawEmail, w1) ->
  simpleParser rawEmail = Ok parsed ->
  parseInt10 index = Some n ->
  (Z.of_nat (length (Parsed.attachments parsed)) <= n)%Z ->
  let response :=
    (run cl (downloadAttachment S3_BUCKET simpleParser
               {| DownloadQuery.emailId := Some emailId;
                  DownloadQuery.index := Some index |}) w).1 in
  response = {| status := 404; body := TextBody "Attachment not found at that index." |}
  /\ attachmentBytes response = None.
Proof.
  intros Hid Hget Hparse Hindex Hrange response.
  assert (response
          = {| status := 404; body := TextBody "Attachment not found at that index." |})
    as ->; [| done].
  unfold response, downloadAttachment. cbn [DownloadQuery.index DownloadQuery.emailId].
  destruct emailId as [| c s]; [done |]. cbn [JS.truthy].
  change (default "" (Some (String c s))) with (String c s).
  rewrite run_bind, run_bindOk, run_send, Hget. cbn [fst snd].
  rewrite run_bindOk. cbn [run fst snd]. rewrite Hparse. cbn [run fst snd].
  rewrite Hindex. unfold arrayGet.
  destruct (0 <=? n)%Z; [| done].
  rewrite lookup_ge_None_2 by lia. done.
Qed.

Lemma attachment_index_out_of_range_witness :
  (run Sample.client
       (downloadAttachment Sample.bucket Sample.parser
          {| DownloadQuery.emailId := Some "key2"; DownloadQuery.index := Some "1" |})
       Sample.world).1
  = {| status := 404; body := TextBody "Attachment not found at that index." |}.
Proof.
  refine (proj1 (attachment_index_out_of_range Sample.client Sample.bucket Sample.parser
                   "key2" "1" "with report" _ 1 Sample.world Sample.world
                   _ eq_refl eq_refl eq_refl _)).
  - discriminate.
  - vm_compute. discriminate.
Defined.

(** ** The sender of a listed message *)

(** C8.  The sender of a listed message is the value of the
    [x-maildeck-sender] header whenever the message has one (with a value
    that is not empty), whatever its [From] header says; without that
    header it is the text of the [From] header, and empty when there is no
    [From] header either. *)
Theorem sender_prefers_trace_header (obj : S3Object.t) (parsed : Parsed.t) :
  (forall value,
      Parsed.headers parsed !! "x-maildeck-sender" = Some value ->
      value <> "" ->
      Email.sender (toEmail obj parsed) = value)
  /\ (Parsed.headers parsed !! "x-maildeck-sender" = None ->
      (forall from, Parsed.from parsed = Some from ->
                    Email.sender (toEmail obj parsed) = from)
      /\ (Parsed.from parsed = None -> Email.sender (toEmail obj parsed) = "")).
Proof.
  unfold toEmail. cbn [Email.sender]. split.
  - intros value -> Hvalue. by destruct value.
  - intros ->. split.
    + intros from ->. by destruct from.
    + by intros ->.
Qed.

Lemma sender_prefers_trace_header_witness :
  let parsed :=
    {| Parsed.text := Some "Hi"; Parsed.html := None; Parsed.textAsHtml := None;
       Parsed.from := Some "ses-bounce@aws"; Parsed.to := Some "bob@example.org";
       Parsed.subject := Some "Hello"; Parsed.date := None;
       Parsed.headers := {[ "x-maildeck-sender" := "a@x.com" ]};
       Parsed.attachments := [] |} in
  Email.sender (toEmail (S3Object.mk "sent/mid1" 5 9) parsed) = "a@x.com"
  /\ Email.sender (toEmail (S3Object.mk "key1" 5 5) (Sample.plain "hello"))
     = "ann@example.org".
Proof.
  cbn zeta. split.
  - refine (proj1 (sender_prefers_trace_header _ _) "a@x.com" _ _).
    + vm_compute. reflexivity.
    + discriminate.
  - refine (proj1 (proj2 (sender_prefers_trace_header _ _) _) "ann@example.org" _).
    + vm_compute. reflexivity.
    + reflexivity.
Defined.

(** ** Moving to the trash folder *)
Lemma append_cons (x : ascii) (a b : string) : String x a +:+ b = String x (a +:+ b).
Proof. reflexivity. Qed.

Lemma append_assoc (a b c : string) : (a +:+ b) +:+ c = a +:+ (b +:+ c).
Proof. induction a as [| x a IH]; [done |]. rewrite !append_cons. by f_equal. Qed.

Lemma list_ascii_of_append (a b : string) :
  list_ascii_of_string (a +:+ b) = list_ascii_of_string a ++ list_ascii_of_string b.
Proof.
  induction a as [| x a IH]; [done |].
  rewrite append_cons. cbn [list_ascii_of_string app]. by f_equal.
Qed.

Lemma stripPrefix_append (p s : string) : Mem.stripPrefix p (p +:+ s) = Some s.
Proof.
  induction p as [| c p IH]; [done |].
  rewrite append_cons. cbn [Mem.stripPrefix]. by rewrite Ascii.eqb_refl.
Qed.

Lemma component_app (l l' : list ascii) :
  forallb (fun c => negb (path.isSep c)) l = true ->
  path.component (l ++ "/"%char :: l') = l.
Proof.
  induction l as [| c l IH]; simpl; [done |].
  intros [Hc Hl]%andb_true_iff. destruct (path.isSep c); [done |].
  by rewrite IH.
Qed.

Lemma skipSeps_app (l l' : list ascii) :
  l <> [] -> forallb (fun c => negb (path.isSep c)) l = true ->
  path.skipSeps (l ++ l') = l ++ l'.
Proof.
  destruct l as [| c l]; [done |]. simpl.
  intros _ [Hc _]%andb_true_iff. by destruct (path.isSep c).
Qed.

(** The basename of [dir/name] is [name]. *)
Lemma basename_in_dir (dir name : string) :
  name <> "" -> noSep name = true ->
  path.basename (dir +:+ "/" +:+ name) = name.
Proof.
  intros Hne Hsep. unfold path.basename.
  rewrite !list_ascii_of_append, !rev_app_distr. simpl (rev (list_ascii_of_string "/")).
  assert (Hrev : forallb (fun c => negb (path.isSep c)) (rev (list_ascii_of_string name)) = true).
  { unfold noSep in Hsep. rewrite forallb_forall in *. intros c Hc.
    apply Hsep. by apply in_rev. }
  assert (Hnil : rev (list_ascii_of_string name) <> []).
  { intros H. apply (f_equal (@rev ascii)) in H. rewrite rev_involutive in H.
    destruct name; [done | discriminate H]. }
  rewrite <- app_assoc. rewrite skipSeps_app by done.
  simpl ([_] ++ _). rewrite component_app by done.
  by rewrite rev_involutive, string_of_list_ascii_of_string.
Qed.

Lemma inBucket_same {X} bucket (w : Mem.World) (r : result X * Mem.World) :
  Mem.inBucket bucket bucket w r = r.
Proof. unfold Mem.inBucket. by rewrite String.eqb_refl. Qed.

(** One round of the loop against the store in memory. *)
Lemma run_move_one (f : Mem.Faults) (bucket id : string) (w : Mem.World) :
  run (Mem.client f bucket) (moveEach bucket [id]) w
  = match Mem.rejects f _ (CopyObjectCommand bucket (bucket +:+ "/" +:+ id) (trashKey id)) with
    | Some e => (Err e, w)
    | None =>
        match Mem.objects w !! id with
        | None => (Err Mem.noSuchKey, w)
        | Some o =>
            if String.eqb id (trashKey id) then (Err Mem.copyOntoItself, w)
            else
              let w1 := Mem.store (trashKey id) (Mem.Body o) w in
              match Mem.rejects f _ (DeleteObjectCommand bucket id) with
              | Some e => (Err e, w1)
              | None => (Ok tt, Mem.remove id w1)
              end
        end
    end.
Proof.
  cbn [moveEach]. rewrite run_bindOk, run_send. cbn [answer Mem.client].
  destruct (Mem.rejects f _ (CopyObjectCommand _ _ _)) as [e |]; [done |].
  cbn [Mem.perform]. rewrite inBucket_same.
  rewrite <- append_assoc, stripPrefix_append.
  destruct (Mem.objects w !! id) as [o |]; [| done].
  destruct (String.eqb id (trashKey id)); [done |]. cbn [fst snd].
  rewrite run_bindOk, run_send. cbn [answer Mem.client].
  destruct (Mem.rejects f _ (DeleteObjectCommand _ _)) as [e |]; [done |].
  cbn [Mem.perform]. by rewrite inBucket_same.
Qed.

Lemma run_moveToTrash_one {W} (cl : Client W) (bucket id : string) (w : W) :
  run cl (moveToTrash bucket (Some [id])) w
  = (match (run cl (moveEach bucket [id]) w).1 with
     | Ok _ => {| status := 200; body := JsonSuccess true "Moved 1 email(s) to trash." |}
     | Err detail =>
         {| status := 500; body := JsonFailure "Failed to move emails to trash" detail |}
     end, (run cl (moveEach bucket [id]) w).2).
Proof.
  unfold moveToTrash. rewrite run_bind.
  by destruct (run cl (moveEach bucket [id]) w) as [[[] | e] w'].
Qed.

Lemma eqb_trashKey (id : string) : trashKey id <> id -> String.eqb id (trashKey id) = false.
Proof. intros Hne. apply String.eqb_neq. congruence. Qed.

(** A message that is moved to another key is gone from its key and is
    found, with the same bytes, under [trash/] and its basename. *)
Lemma move_to_trash_moves (f : Mem.Faults) (bucket id : string) (w w' : Mem.World)
    (r : Response) :
  trashKey id <> id ->
  run (Mem.client f bucket) (moveToTrash bucket (Some [id])) w = (r, w') ->
  status r = 200 ->
  Mem.objects w' !! id = None
  /\ exists o, Mem.objects w !! id = Some o
               /\ Mem.Body <$> Mem.objects w' !! trashKey id = Some (Mem.Body o).
Proof.
  intros Hne. rewrite run_moveToTrash_one, run_move_one.
  destruct (Mem.rejects f _ (CopyObjectCommand _ _ _)); [by intros [= <- <-] |].
  destruct (Mem.objects w !! id) as [o |] eqn:Ho; [| by intros [= <- <-]].
  rewrite eqb_trashKey by done. cbn zeta.
  destruct (Mem.rejects f _ (DeleteObjectCommand _ _)); [by intros [= <- <-] |].
  intros [= <- <-] _. cbn [snd Mem.remove Mem.store Mem.objects]. split.
  - apply lookup_delete_eq.
  - exists o. split; [done |].
    rewrite lookup_delete_ne by done. by rewrite lookup_insert_eq.
Qed.

(** A move that is reported as done was not a move of a key onto itself. *)
Lemma moved_off_its_key (f : Mem.Faults) (bucket id : string) (w w' : Mem.World)
    (r : Response) :
  run (Mem.client f bucket) (moveToTrash bucket (Some [id])) w = (r, w') ->
  status r = 200 ->
  trashKey id <> id.
Proof.
  rewrite run_moveToTrash_one, run_move_one.
  destruct (Mem.rejects f _ (CopyObjectCommand _ _ _)); [by intros [= <- <-] |].
  destruct (Mem.objects w !! id) as [o |]; [| by intros [= <- <-]].
  destruct (String.eqb id (trashKey id)) eqn:E; [by intros [= <- <-] |].
  intros _ _ H. apply String.eqb_neq in E. congruence.
Qed.

(** A loop that runs to its end has sent, id after id, the copy and then
    the delete of that id. *)
Lemma trace_moveEach_done {W} (cl : Client W) (bucket : string) (ids : list string) (w : W) :
  isOk (run cl (moveEach bucket ids) w).1 = true ->
  trace cl (moveEach bucket ids) w = flat_map (moveCommands bucket) ids.
Proof.
  revert w. induction ids as [| id ids IH]; intros w; [done |].
  cbn [moveEach flat_map].
  rewrite run_bindOk, trace_bindOk, run_send, trace_send.
  destruct (answer cl (CopyObjectCommand _ _ _) w) as [[[] | e] w1];
    cbn [fst snd]; [| done].
  rewrite run_bindOk, trace_bindOk, run_send, trace_send.
  destruct (answer cl (DeleteObjectCommand _ _) w1) as [[[] | e] w2];
    cbn [fst snd]; [| done].
  intros Hok. by rewrite (IH _ Hok).
Qed.

Lemma trace_moveToTrash_done {W} (cl : Client W) (bucket : string) (ids : list string)
    (w : W) :
  status (run cl (moveToTrash bucket (Some ids)) w).1 = 200 ->
  trace cl (moveToTrash bucket (Some ids)) w = flat_map (moveCommands bucket) ids.
Proof.
  destruct ids as [| id ids]; [done |].
  unfold moveToTrash. rewrite run_bind, trace_bind.
  pose proof (trace_moveEach_done cl bucket (id :: ids) w) as Hdone.
  destruct (run cl (moveEach bucket (id :: ids)) w) as [[[] | e] w'];
    cbn [fst snd run trace status]; [| done].
  intros _. rewrite app_nil_r. by apply Hdone.
Qed.

(** C5.  Whenever the move of one key [k] is reported as done, whatever
    the faults of the store, the store has no object at [k] any more and
    has, at [trash/] followed by the basename of [k], an object with the
    bytes the object at [k] had; that key is another key than [k].  The
    commands sent are the copy and then the delete; and for any client and
    any list of ids, a move that is reported as done has sent, id after id
    in the order of the list, the copy and then the delete of that id. *)
Theorem move_to_trash_relocates (f : Mem.Faults) (bucket k : string) (w w' : Mem.World)
    (r : Response) :
  run (Mem.client f bucket) (moveToTrash bucket (Some [k])) w = (r, w') ->
  status r = 200 ->
  let newKey := TRASH_PREFIX +:+ path.basename k in
  Mem.objects w' !! k = None
  /\ (exists o, Mem.objects w !! k = Some o
                /\ Mem.Body <$> Mem.objects w' !! newKey = Some (Mem.Body o))
  /\ newKey <> k
  /\ trace (Mem.client f bucket) (moveToTrash bucket (Some [k])) w
     = [call (CopyObjectCommand bucket (bucket +:+ "/" +:+ k) newKey);
        call (DeleteObjectCommand bucket k)]
  /\ forall W (cl : Client W) (ids : list string) (w0 : W),
       status (run cl (moveToTrash bucket (Some ids)) w0).1 = 200 ->
       trace cl (moveToTrash bucket (Some ids)) w0 = flat_map (moveCommands bucket) ids.
Proof.
  intros Hrun Hdone newKey.
  pose proof (moved_off_its_key _ _ _ _ _ _ Hrun Hdone) as Hne.
  destruct (move_to_trash_moves _ _ _ _ _ _ Hne Hrun Hdone) as [Hgone Hthere].
  split; [done |]. split; [done |]. split; [done |]. split.
  - rewrite (trace_moveToTrash_done (Mem.client f bucket) bucket [k] w); [done |].
    by rewrite Hrun.
  - intros W cl ids w0. apply trace_moveToTrash_done.
Qed.

Lemma move_to_trash_relocates_witness :
  let w' :=
    Mem.remove "inbox/key1" (Mem.store "trash/key1" "filed" Scenario.worldWithFolder) in
  run Sample.client (moveToTrash Sample.bucket (Some ["inbox/key1"])) Scenario.worldWithFolder
  = ({| status := 200; body := JsonSuccess true "Moved 1 email(s) to trash." |}, w')
  /\ Mem.objects w' !! "inbox/key1" = None
  /\ TRASH_PREFIX +:+ path.basename "inbox/key1" <> "inbox/key1".
Proof.
  cbn zeta.
  assert (Hrun : run Sample.client (moveToTrash Sample.bucket (Some ["inbox/key1"]))
                   Scenario.worldWithFolder
                 = ({| status := 200; body := JsonSuccess true "Moved 1 email(s) to trash." |},
                    Mem.remove "inbox/key1"
                      (Mem.store "trash/key1" "filed" Scenario.worldWithFolder)))
    by (vm_compute; reflexivity).
  split; [exact Hrun |].
  destruct (move_to_trash_relocates Mem.noFaults Sample.bucket "inbox/key1" _ _ _
              Hrun eq_refl) as (Hgone & _ & Hne & _).
  exact (conj Hgone Hne).
Defined.

(** The move of a message of the inbox. *)
Example move_of_inbox_message :
  let outcome :=
    run Sample.client (moveToTrash Sample.bucket (Some ["key1"])) Sample.world in
  outcome.1 = {| status := 200; body := JsonSuccess true "Moved 1 email(s) to trash." |}
  /\ Mem.objects outcome.2 !! "key1" = None
  /\ Mem.objects outcome.2 !! "trash/key1" = Some {| Mem.Body := "hello"; Mem.Modified := 10 |}.
Proof. cbn zeta. repeat split; vm_compute; reflexivity. Qed.

(** C10, as stated, fails: the move of a message that is in the trash
    folder already is refused, no delete is sent, and the message is still
    in the store. *)
Lemma trashed_message_survives :
  let outcome :=
    run Sample.client (moveToTrash Sample.bucket (Some ["trash/x"])) Sample.world in
  Mem.objects Sample.world !! "trash/x" = Some {| Mem.Body := "old"; Mem.Modified := 3 |}
  /\ outcome.1
     = {| status := 500;
          body := JsonFailure "Failed to move emails to trash" Mem.copyOntoItself |}
  /\ trace Sample.client (moveToTrash Sample.bucket (Some ["trash/x"])) Sample.world
     = [call (CopyObjectCommand Sample.bucket "maildeck/trash/x" "trash/x")]
  /\ Mem.objects outcome.2 !! "trash/x" = Some {| Mem.Body := "old"; Mem.Modified := 3 |}.
Proof. cbn zeta. repeat split; vm_compute; reflexivity. Qed.

Lemma self_copy_refused (f : Mem.Faults) (bucket key : string) (w : Mem.World) :
  exists e,
    answer (Mem.client f bucket) (CopyObjectCommand bucket (bucket +:+ "/" +:+ key) key) w
    = (Err e, w)
    /\ (Mem.rejects f _ (CopyObjectCommand bucket (bucket +:+ "/" +:+ key) key) = None ->
        forall o, Mem.objects w !! key = Some o -> e = Mem.copyOntoItself).
Proof.
  cbn [answer Mem.client].
  destruct (Mem.rejects f _ (CopyObjectCommand _ _ _)) as [e |]; [by exists e |].
  cbn [Mem.perform]. rewrite inBucket_same, <- append_assoc, stripPrefix_append.
  destruct (Mem.objects w !! key) as [o |].
  - rewrite String.eqb_refl. by exists Mem.copyOntoItself.
  - by exists Mem.noSuchKey.
Qed.

(** C10.  For an id [trash/name] whose name has no separator, the key the
    loop copies to is the id itself, so the one command the route sends is
    a copy of the object onto its own key.  The store refuses that copy (or
    rejects it for another reason, or has no such object): whatever its
    faults, the route answers 500, no delete is sent, and the store is left
    as it was, so a message that was at the id is still there.  In a store
    without faults that holds the message, the error reported is the
    refusal of the copy. *)
Theorem trashed_message_stays (f : Mem.Faults) (bucket name : string) (w : Mem.World) :
  name <> "" ->
  noSep name = true ->
  let id := TRASH_PREFIX +:+ name in
  let cl := Mem.client f bucket in
  let outcome := run cl (moveToTrash bucket (Some [id])) w in
  TRASH_PREFIX +:+ path.basename id = id
  /\ trace cl (moveToTrash bucket (Some [id])) w
     = [call (CopyObjectCommand bucket (bucket +:+ "/" +:+ id) id)]
  /\ status outcome.1 = 500
  /\ outcome.2 = w
  /\ (forall o, Mem.objects w !! id = Some o ->
        Mem.objects outcome.2 !! id = Some o
        /\ (run (Mem.client Mem.noFaults bucket) (moveToTrash bucket (Some [id])) w).1
           = {| status := 500;
                body := JsonFailure "Failed to move emails to trash" Mem.copyOntoItself |}).
Proof.
  intros Hne Hsep id cl outcome.
  assert (Hkey : trashKey id = id).
  { unfold trashKey, id. f_equal.
    change (TRASH_PREFIX +:+ name) with ("trash" +:+ "/" +:+ name).
    by apply basename_in_dir. }
  assert (Hrun : forall f', exists e,
             run (Mem.client f' bucket) (moveToTrash bucket (Some [id])) w
             = ({| status := 500;
                   body := JsonFailure "Failed to move emails to trash" e |}, w)
             /\ trace (Mem.client f' bucket) (moveToTrash bucket (Some [id])) w
                = [call (CopyObjectCommand bucket (bucket +:+ "/" +:+ id) id)]
             /\ (Mem.rejects f' _ (CopyObjectCommand bucket (bucket +:+ "/" +:+ id) id) = None ->
                 forall o, Mem.objects w !! id = Some o -> e = Mem.copyOntoItself)).
  { intros f'. destruct (self_copy_refused f' bucket id w) as (e & Hanswer & He).
    exists e. unfold moveToTrash. rewrite run_bind, trace_bind. cbn [moveEach].
    rewrite Hkey, run_bindOk, trace_bindOk, run_send, trace_send, Hanswer.
    done. }
  split; [exact Hkey |].
  destruct (Hrun f) as (e & Hout & Htrace & _).
  unfold outcome, cl. rewrite Hout, Htrace. cbn [fst snd status].
  split; [done |]. split; [done |]. split; [done |].
  intros o Ho. split; [done |].
  destruct (Hrun Mem.noFaults) as (e' & -> & _ & He'). cbn [fst].
  by rewrite (He' eq_refl o Ho).
Qed.

Lemma trashed_message_stays_witness :
  let outcome :=
    run Sample.client (moveToTrash Sample.bucket (Some ["trash/x"])) Sample.world in
  status outcome.1 = 500 /\ outcome.2 = Sample.world.
Proof.
  cbn zeta.
  destruct (trashed_message_stays Mem.noFaults Sample.bucket "x" Sample.world)
    as (_ & _ & Hstatus & Hworld & _).
  - discriminate.
  - reflexivity.
  - exact (conj Hstatus Hworld).
Defined.

(** ** The snippet *)


(** *** Matching *)

Lemma length_append (a b : string) :
  String.length (a +:+ b) = String.length a + String.length b.
Proof.
  induction a as [| x a IH]; [done |]. rewrite append_cons. simpl. by rewrite IH.
Qed.

Lemma append_empty_r (a : string) : a +:+ "" = a.
Proof. induction a as [| x a IH]; [done |]. rewrite append_cons. by rewrite IH. Qed.

Lemma startsWith_append (pat t : string) : startsWith pat (pat +:+ t) = true.
Proof.
  induction pat as [| c pat IH]; [done |].
  rewrite append_cons. simpl. by rewrite Ascii.eqb_refl.
Qed.

Lemma contains_append (pat pre t : string) :
  contains pat t = true -> contains pat (pre +:+ t) = true.
Proof.
  intros H. induction pre as [| c pre IH]; [done |].
  rewrite append_cons. simpl. rewrite IH. apply orb_true_r.
Qed.

Lemma contains_suffix (pat pre t : string) :
  contains pat (pre +:+ t) = false -> contains pat t = false.
Proof.
  intros H. destruct (contains pat t) eqn:E; [| done].
  by rewrite (contains_append _ pre) in H.
Qed.

Lemma m_lit_append (l : string) (k : JS.Matcher) (t : string) :
  JS.m_lit l k (l +:+ t) = (fun n => String.length l + n) <$> k t.
Proof.
  induction l as [| c l IH].
  - change ("" +:+ t) with t. cbn [JS.m_lit]. by destruct (k t).
  - rewrite append_cons. cbn [JS.m_lit]. rewrite Ascii.eqb_refl, IH.
    by destruct (k t).
Qed.

Lemma m_lit_Some (l : string) (k : JS.Matcher) (s : string) (n : nat) :
  JS.m_lit l k s = Some n ->
  exists t m, s = l +:+ t /\ k t = Some m /\ n = String.length l + m.
Proof.
  revert s n. induction l as [| c l IH]; intros s n; cbn [JS.m_lit].
  - intros H. by exists s, n.
  - destruct s as [| d s]; [done |].
    destruct (Ascii.eqb_spec c d) as [<- |]; [| done].
    destruct (JS.m_lit l k s) as [n' |] eqn:E; [| done]. intros [= <-].
    destruct (IH _ _ E) as (t & m & -> & Hk & ->). by exists t, m.
Qed.

Lemma m_lit_startsWith (l : string) (k : JS.Matcher) (s : string) (n : nat) :
  JS.m_lit l k s = Some n -> startsWith l s = true.
Proof.
  intros (t & m & -> & _)%m_lit_Some. apply startsWith_append.
Qed.

Lemma m_star_Some (p : ascii -> bool) (k : JS.Matcher) (s : string) (n : nat) :
  JS.m_star p k s = Some n -> exists pre t m, s = pre +:+ t /\ k t = Some m.
Proof.
  revert n. induction s as [| c s IH]; intros n; cbn [JS.m_star].
  - intros H. by exists "", "", n.
  - destruct (p c); [| intros H; by exists "", (String c s), n].
    destruct (JS.m_star p k s) as [n' |] eqn:E.
    + intros _. destruct (IH _ eq_refl) as (pre & t & m & -> & Hk).
      by exists (String c pre), t, m.
    + intros H. by exists "", (String c s), n.
Qed.

(** A greedy repetition stops at the first character outside the class
    when the rest of the pattern matches there. *)
Lemma m_star_stop (p : ascii -> bool) (k : JS.Matcher) (body : string) (c : ascii)
    (t : string) (n : nat) :
  allChars p body = true -> p c = false -> k (String c t) = Some n ->
  JS.m_star p k (body +:+ String c t) = Some (String.length body + n).
Proof.
  intros Hbody Hc Hk. induction body as [| b body IH].
  - change ("" +:+ String c t) with (String c t). cbn [JS.m_star]. by rewrite Hc.
  - rewrite append_cons. cbn [JS.m_star]. simpl in Hbody.
    apply andb_true_iff in Hbody as [-> Hbody]. by rewrite IH.
Qed.





(** *** Replacing *)
Lemma replace_skip (m : JS.Matcher) (rep s1 s2 : string) :
  JS.replace_from m rep (String.length s1) (s1 +:+ s2) = JS.replace_from m rep 0 s2.
Proof.
  induction s1 as [| c s1 IH]; [done |].
  rewrite append_cons. cbn [String.length JS.replace_from]. apply IH.
Qed.

(** Where the pattern matches nowhere, nothing is replaced. *)
Lemma replace_no_match (m : JS.Matcher) (rep s : string) :
  (forall pre t, s = pre +:+ t -> m t = None) -> JS.replaceAll m rep s = s.
Proof.
  unfold JS.replaceAll. induction s as [| c s IH]; intros Hno; cbn [JS.replace_from].
  - by rewrite (Hno "" "" eq_refl).
  - rewrite (Hno "" (String c s) eq_refl). f_equal. apply IH.
    intros pre t ->. by apply (Hno (String c pre) t).
Qed.

(** A stretch in which the pattern matches at no position is copied. *)
Lemma replace_pre (m : JS.Matcher) (rep pre s : string) :
  (forall q r, pre = q +:+ r -> r <> "" -> m (r +:+ s) = None) ->
  JS.replaceAll m rep (pre +:+ s) = pre +:+ JS.replaceAll m rep s.
Proof.
  unfold JS.replaceAll. induction pre as [| c pre IH]; intros Hno; [done |].
  rewrite !append_cons. cbn [JS.replace_from].
  rewrite <- append_cons, (Hno "" (String c pre) eq_refl) by done.
  f_equal. apply IH. intros q r -> Hr. by apply (Hno (String c q) r).
Qed.

(** A match at the very start is replaced as a whole. *)
Lemma replace_match (m : JS.Matcher) (rep found s : string) :
  found <> "" -> m (found +:+ s) = Some (String.length found) ->
  JS.replaceAll m rep (found +:+ s) = rep +:+ JS.replaceAll m rep s.
Proof.
  unfold JS.replaceAll. destruct found as [| c found]; [done |]. intros _.
  rewrite append_cons. cbn [JS.replace_from String.length]. intros ->.
  by rewrite replace_skip.
Qed.



Lemma contains_of_suffix (pat q r : string) :
  contains pat (q +:+ r) = false -> startsWith pat r = false.
Proof.
  intros H%contains_suffix. destruct r; simpl in H; by apply orb_false_iff in H as [? _].
Qed.




(** *** Tags *)
Lemma re_tag_cons (c : ascii) (s : string) :
  JS.re_tag (String c s)
  = if Ascii.eqb "<" c
    then S <$> JS.m_star JS.notGt (JS.m_lit ">" JS.m_end) s
    else None.
Proof. reflexivity. Qed.

Lemma contains_gt_cons (c : ascii) (s : string) :
  contains ">" (String c s) = Ascii.eqb ">" c || contains ">" s.
Proof. simpl. by rewrite andb_true_r. Qed.

(** One tag, nothing that opens a tag in front of it, becomes a space. *)
Lemma stripTags_tag (pre inner rest : string) :
  contains "<" pre = false ->
  allChars JS.notGt inner = true ->
  stripTags (pre +:+ "<" +:+ inner +:+ ">" +:+ rest) = pre +:+ " " +:+ stripTags rest.
Proof.
  intros Hpre Hinner. unfold stripTags. rewrite replace_pre.
  - f_equal.
    replace ("<" +:+ inner +:+ ">" +:+ rest) with (("<" +:+ inner +:+ ">") +:+ rest)
      by (by rewrite !append_assoc).
    apply replace_match; [done |].
    rewrite !append_assoc. unfold JS.re_tag. rewrite m_lit_append.
    change (">" +:+ rest) with (String ">" rest).
    erewrite m_star_stop; [| done | done | reflexivity].
    cbn [fmap option_fmap option_map]. f_equal. rewrite !length_append. simpl. lia.
  - intros q r -> Hr.
    destruct (JS.re_tag _) as [n |] eqn:E; [| done].
    apply m_lit_startsWith in E. apply contains_of_suffix in Hpre.
    destruct r as [| d r]; [done |]. rewrite append_cons in E. simpl in *. congruence.
Qed.

(** A replacement by a space brings in no [>] and no tag. *)
Lemma replace_keeps_gt_out (m : JS.Matcher) (n : nat) (s : string) :
  contains ">" s = false -> contains ">" (JS.replace_from m " " n s) = false.
Proof.
  revert n. induction s as [| c s IH]; intros n; cbn [JS.replace_from].
  - intros _. by destruct n, (m "").
  - rewrite contains_gt_cons. intros [Hc Hs]%orb_false_iff.
    destruct n as [| n]; [| by apply IH].
    destruct (m (String c s)) as [[| k] |].
    + change (" " +:+ ?x) with (String " " x).
      rewrite !contains_gt_cons, Hc. by rewrite IH.
    + change (" " +:+ ?x) with (String " " x). rewrite contains_gt_cons. by rewrite IH.
    + rewrite contains_gt_cons, Hc. by rewrite IH.
Qed.

Lemma replace_keeps_tagFree (m : JS.Matcher) (n : nat) (s : string) :
  tagFree s = true -> tagFree (JS.replace_from m " " n s) = true.
Proof.
  revert n. induction s as [| c s IH]; intros n; cbn [JS.replace_from].
  - intros _. by destruct n, (m "").
  - cbn [tagFree]. intros [Hc Hs]%andb_true_iff.
    destruct n as [| n]; [| by apply IH].
    assert (Hout : (if Ascii.eqb c "<"
                    then negb (contains ">" (JS.replace_from m " " 0 s)) else true) = true).
    { destruct (Ascii.eqb c "<"); [| done].
      apply negb_true_iff in Hc. by rewrite replace_keeps_gt_out. }
    destruct (m (String c s)) as [[| k] |].
    + change (" " +:+ ?x) with (String " " x). cbn [tagFree].
      rewrite Hout, IH by done. done.
    + change (" " +:+ ?x) with (String " " x). cbn [tagFree]. by rewrite IH.
    + cbn [tagFree]. by rewrite Hout, IH.
Qed.

Lemma no_tag_no_gt (s : string) :
  JS.m_star JS.notGt (JS.m_lit ">" JS.m_end) s = None -> contains ">" s = false.
Proof.
  induction s as [| c s IH]; [done |]. cbn [JS.m_star]. rewrite contains_gt_cons.
  unfold JS.notGt at 1. rewrite Ascii.eqb_sym.
  destruct (Ascii.eqb ">" c) eqn:E; cbn [negb].
  - cbn [JS.m_lit]. by rewrite E.
  - destruct (JS.m_star _ _ s); [done |]. intros _. by rewrite IH.
Qed.

(** Whatever the input, the output of the tag pass has no tag left. *)
Lemma stripTags_from_tagFree (n : nat) (s : string) :
  tagFree (JS.replace_from JS.re_tag " " n s) = true.
Proof.
  revert n. induction s as [| c s IH]; intros n; cbn [JS.replace_from].
  - by destruct n.
  - destruct n as [| n]; [| by apply IH].
    rewrite re_tag_cons. destruct (Ascii.eqb "<" c) eqn:E.
    + destruct (JS.m_star _ _ s) as [k |] eqn:Hs; cbn [fmap option_fmap option_map].
      * change (" " +:+ ?x) with (String " " x). cbn [tagFree]. by rewrite IH.
      * cbn [tagFree]. rewrite IH, andb_true_r.
        destruct (Ascii.eqb c "<"); [| done].
        by rewrite replace_keeps_gt_out by (by apply no_tag_no_gt).
    + cbn [tagFree]. rewrite Ascii.eqb_sym, E. by rewrite IH.
Qed.

Lemma stripTags_tagFree (s : string) : tagFree (stripTags s) = true.
Proof. apply stripTags_from_tagFree. Qed.

(** *** White space *)

Lemma m_star_ws (s : string) : JS.m_star JS.isWhiteSpace JS.m_end s = Some (wsRun s).
Proof.
  induction s as [| c s IH]; [done |]. cbn [JS.m_star wsRun].
  destruct (JS.isWhiteSpace c); [by rewrite IH | done].
Qed.

Lemma replace_skip_ws (m : JS.Matcher) (rep s : string) :
  JS.replace_from m rep (wsRun s) s = JS.replace_from m rep 0 (JS.trimStart s).
Proof.
  induction s as [| c s IH]; [done |]. cbn [wsRun JS.trimStart].
  destruct (JS.isWhiteSpace c); [| done]. cbn [JS.replace_from]. apply IH.
Qed.

Lemma trimStart_startsClean (s : string) : startsClean (JS.trimStart s) = true.
Proof.
  induction s as [| c s IH]; [done |]. cbn [JS.trimStart].
  destruct (JS.isWhiteSpace c) eqn:E; [done |]. simpl. by rewrite E.
Qed.

Lemma trimStart_length (s : string) :
  String.length (JS.trimStart s) <= String.length s.
Proof.
  induction s as [| c s IH]; [done |]. cbn [JS.trimStart].
  destruct (JS.isWhiteSpace c); simpl; lia.
Qed.

Lemma collapse_from (fuel : nat) (s : string) :
  String.length s <= fuel ->
  singleSpaced (JS.replace_from JS.re_spaces " " 0 s) = true
  /\ (startsClean s = true ->
      startsClean (JS.replace_from JS.re_spaces " " 0 s) = true).
Proof.
  revert s. induction fuel as [| fuel IH]; intros [| c s] Hlen; try done.
  - simpl in Hlen. lia.
  - simpl in Hlen. cbn [JS.replace_from JS.re_spaces JS.m_plus].
    destruct (JS.isWhiteSpace c) eqn:E.
    + rewrite m_star_ws. cbn [fmap option_fmap option_map].
      rewrite replace_skip_ws. change (" " +:+ ?x) with (String " " x).
      pose proof (trimStart_length s).
      destruct (IH (JS.trimStart s)) as [H1 H2]; [lia |].
      split; [| simpl; by rewrite E].
      cbn [singleSpaced]. rewrite H1, H2 by apply trimStart_startsClean. done.
    + destruct (IH s) as [H1 _]; [lia |].
      split; [| simpl; by rewrite E]. cbn [singleSpaced]. by rewrite E, H1.
Qed.

Lemma collapseSpaces_singleSpaced (s : string) : singleSpaced (collapseSpaces s) = true.
Proof. by apply (collapse_from (String.length s)). Qed.

Lemma singleSpaced_trimStart (s : string) :
  singleSpaced s = true -> singleSpaced (JS.trimStart s) = true.
Proof.
  induction s as [| c s IH]; [done |]. cbn [JS.trimStart].
  destruct (JS.isWhiteSpace c); [| done].
  cbn [singleSpaced]. intros [_ H]%andb_true_iff. by apply IH.
Qed.

Lemma trimEnd_head (s t : string) (d : ascii) :
  JS.trimEnd s = String d t -> exists s', s = String d s'.
Proof.
  destruct s as [| c s]; [done |]. cbn [JS.trimEnd].
  destruct (JS.trimEnd s); [destruct (JS.isWhiteSpace c); [done |] |];
    intros [= -> _]; by eexists.
Qed.

Lemma startsClean_trimEnd (s : string) :
  startsClean s = true -> startsClean (JS.trimEnd s) = true.
Proof.
  destruct s as [| c s]; [done |]. cbn [JS.trimEnd startsClean].
  destruct (JS.trimEnd s); [| done]. destruct (JS.isWhiteSpace c) eqn:E; [done |].
  simpl. by rewrite E.
Qed.

Lemma endsClean_trimEnd (s : string) : endsClean (JS.trimEnd s) = true.
Proof.
  induction s as [| c s IH]; [done |]. cbn [JS.trimEnd].
  destruct (JS.trimEnd s) as [| d t] eqn:E.
  - destruct (JS.isWhiteSpace c) eqn:Hc; [done |]. simpl. by rewrite Hc.
  - done.
Qed.

Lemma singleSpaced_trimEnd (s : string) :
  singleSpaced s = true -> singleSpaced (JS.trimEnd s) = true.
Proof.
  induction s as [| c s IH]; [done |]. cbn [JS.trimEnd singleSpaced].
  intros [Hc Hs]%andb_true_iff.
  destruct (JS.trimEnd s) as [| d t] eqn:E.
  - destruct (JS.isWhiteSpace c) eqn:Hws; [done |]. simpl. by rewrite Hws.
  - apply trimEnd_head in E as Hhead. destruct Hhead as [s' ->].
    cbn [singleSpaced]. rewrite (IH Hs) at 1.
    rewrite andb_true_r. destruct (JS.isWhiteSpace c); [| done].
    apply andb_true_iff in Hc as [-> Hc]. done.
Qed.

Lemma contains_gt_trimStart (s : string) :
  contains ">" s = false -> contains ">" (JS.trimStart s) = false.
Proof.
  induction s as [| c s IH]; [done |]. cbn [JS.trimStart].
  destruct (JS.isWhiteSpace c); [| done].
  rewrite contains_gt_cons. intros [_ H]%orb_false_iff. by apply IH.
Qed.

Lemma contains_gt_trimEnd (s : string) :
  contains ">" s = false -> contains ">" (JS.trimEnd s) = false.
Proof.
  induction s as [| c s IH]; [done |]. cbn [JS.trimEnd].
  rewrite contains_gt_cons. intros [Hc Hs]%orb_false_iff.
  destruct (JS.trimEnd s) as [| d t] eqn:E.
  - destruct (JS.isWhiteSpace c); [done |]. rewrite contains_gt_cons, Hc. done.
  - rewrite contains_gt_cons, Hc. by apply IH.
Qed.

Lemma tagFree_trim (s : string) : tagFree s = true -> tagFree (JS.trim s) = true.
Proof.
  unfold JS.trim. intros Hs.
  assert (Hstart : tagFree (JS.trimStart s) = true).
  { induction s as [| c s IH]; [done |]. cbn [JS.trimStart].
    destruct (JS.isWhiteSpace c); [| done].
    cbn [tagFree] in Hs. apply andb_true_iff in Hs as [_ Hs]. by apply IH. }
  clear Hs. induction (JS.trimStart s) as [| c r IH]; [done |].
  cbn [JS.trimEnd tagFree] in *. apply andb_true_iff in Hstart as [Hc Hr].
  destruct (JS.trimEnd r) as [| d t] eqn:E.
  - destruct (JS.isWhiteSpace c); [done |]. cbn [tagFree].
    by destruct (Ascii.eqb c "<").
  - cbn [tagFree] in *. rewrite (IH Hr), andb_true_r.
    destruct (Ascii.eqb c "<"); [| done].
    apply negb_true_iff in Hc. apply contains_gt_trimEnd in Hc.
    rewrite E in Hc. by rewrite Hc.
Qed.

(** The text derived from any HTML body: no tag is left in it, its white
    space is single spaces between other characters. *)
Lemma htmlToText_clean (html : string) :
  tagFree (htmlToText html) = true
  /\ singleSpaced (htmlToText html) = true
  /\ startsClean (htmlToText html) = true
  /\ endsClean (htmlToText html) = true.
Proof.
  unfold htmlToText, JS.trim. repeat split.
  - apply tagFree_trim. unfold collapseSpaces, JS.replaceAll.
    apply replace_keeps_tagFree, stripTags_tagFree.
  - apply singleSpaced_trimEnd, singleSpaced_trimStart, collapseSpaces_singleSpaced.
  - apply startsClean_trimEnd, trimStart_startsClean.
  - apply endsClean_trimEnd.
Qed.



(** Blocks that span lines, in the spelling of the patterns. *)
Example htmlToText_multiline :
  htmlToText ("<p>Dear  Ann,</p>" +:+ LF +:+ "<style type=text/css>" +:+ LF +:+
              ".x { color: red }" +:+ LF +:+ "</style>" +:+ LF +:+
              "<script>" +:+ LF +:+ "alert(1)" +:+ LF +:+ "</script>" +:+
              "<b>see</b> you")
  = "Dear Ann, see you".
Proof. reflexivity. Qed.

(** What the fallback makes of the body of C7 and of a style block in
    upper case, were the parser to hand over no text for them. *)
Example fallback_keeps_character_reference :
  textSnippet (Sample.withoutText "<style>.x{}</style><p>Hello&nbsp;World</p>")
  = "Hello&nbsp;World"
  /\ textSnippet (Sample.withoutText "<STYLE>.x{}</STYLE><p>Hello World</p>")
     = ".x{} Hello World".
Proof. split; reflexivity. Qed.



(** * Further properties of the handlers *)

(** ** Access control *)
Lemma startsWith_split (pat s : string) :
  startsWith pat s = true -> exists t, s = pat +:+ t.
Proof.
  revert s. induction pat as [| c pat IH]; intros s; [by exists s |].
  destruct s as [| d s]; [done |]. cbn [startsWith].
  intros [->%Ascii.eqb_eq H]%andb_true_iff.
  destruct (IH _ H) as [t ->]. by exists t.
Qed.

Lemma substring_all (s : string) : substring 0 (String.length s) s = s.
Proof. induction s as [| c s IH]; [done |]. simpl. by rewrite IH. Qed.

Lemma substringFrom_append (pat t : string) :
  substringFrom (String.length pat) (pat +:+ t) = t.
Proof.
  unfold substringFrom. rewrite length_append.
  replace (String.length pat + String.length t - String.length pat)
    with (String.length t) by lia.
  induction pat as [| c pat IH]; [apply substring_all |].
  rewrite append_cons. simpl. apply IH.
Qed.

Lemma authenticate_iff (AUTH_TOKEN authorization : option string) :
  authenticate AUTH_TOKEN authorization = true
  <-> exists token, AUTH_TOKEN = Some token
                    /\ authorization = Some ("Bearer " +:+ token).
Proof.
  unfold authenticate, strictEq. split.
  - destruct authorization as [authHeader |]; [| done].
    intros [[_ Hstart]%andb_true_iff Htoken%bool_decide_eq_true]%andb_true_iff.
    apply startsWith_split in Hstart as [t ->].
    change 7 with (String.length "Bearer ") in Htoken.
    rewrite substringFrom_append in Htoken. by exists t.
  - intros (token & -> & ->).
    change 7 with (String.length "Bearer ").
    rewrite substringFrom_append, startsWith_append.
    rewrite bool_decide_eq_true_2 by done. done.
Qed.

(** X1.  The middleware lets a request through exactly when a token is
    configured and the Authorization header is [Bearer ] followed by that
    token; every other request to a protected route is answered 401 by the
    middleware and no command is sent for it. *)
Theorem authenticate_exact (AUTH_TOKEN authorization : option string) :
  (authenticate AUTH_TOKEN authorization = true
   <-> exists token, AUTH_TOKEN = Some token
                     /\ authorization = Some ("Bearer " +:+ token))
  /\ forall handler : Prog Response,
       (authenticate AUTH_TOKEN authorization = true ->
        protect AUTH_TOKEN authorization handler = handler)
       /\ (authenticate AUTH_TOKEN authorization = false ->
           protect AUTH_TOKEN authorization handler = Ret unauthorized
           /\ forall W (cl : Client W) (w : W),
                trace cl (protect AUTH_TOKEN authorization handler) w = []).
Proof.
  split; [apply authenticate_iff |].
  intros handler. unfold protect. split; intros ->; [done |]. by split.
Qed.

Lemma authenticate_exact_witness :
  authenticate (Some "s3cret") (Some "Bearer s3cret") = true
  /\ protect (Some "s3cret") (Some "Bearer wrong") (getInbox Sample.bucket Sample.parser)
     = Ret unauthorized.
Proof.
  split.
  - apply (proj1 (authenticate_exact (Some "s3cret") (Some "Bearer s3cret"))).
    by exists "s3cret".
  - apply (proj2 (authenticate_exact (Some "s3cret") (Some "Bearer wrong"))).
    reflexivity.
Defined.

(** X2.  A login succeeds exactly when both fields equal the configured
    values, a missing field being equal to a missing setting; it then
    hands out the configured token, and that token, sent as a Bearer
    header, passes the middleware.  Any other login is answered 401 and
    carries no token. *)
Theorem login_token_authenticates (APP_USER APP_PASSWORD AUTH_TOKEN : option string)
    (req : LoginRequest.t) :
  let res := login APP_USER APP_PASSWORD AUTH_TOKEN req in
  (LoginResponse.status res = 200
   <-> LoginRequest.username req = APP_USER /\ LoginRequest.password req = APP_PASSWORD)
  /\ (LoginResponse.status res = 200 ->
      LoginResponse.token res = AUTH_TOKEN
      /\ forall token, LoginResponse.token res = Some token ->
                       authenticate AUTH_TOKEN (Some ("Bearer " +:+ token)) = true)
  /\ (LoginResponse.status res <> 200 ->
      LoginResponse.status res = 401 /\ LoginResponse.token res = None).
Proof.
  cbn zeta. unfold login, strictEq.
  destruct (bool_decide_reflect (LoginRequest.username req = APP_USER)) as [Hu | Hu];
    destruct (bool_decide_reflect (LoginRequest.password req = APP_PASSWORD)) as [Hp | Hp];
    cbn [andb LoginResponse.status LoginResponse.token].
  - split; [done |]. split; [| done]. intros _. split; [done |].
    intros token Htoken. apply authenticate_iff. by exists token.
  - split; [split; [done | by intros [? ?]] |]. split; done.
  - split; [split; [done | by intros [? ?]] |]. split; done.
  - split; [split; [done | by intros [? ?]] |]. split; done.
Qed.

Lemma login_token_authenticates_witness :
  let res := login (Some "admin") (Some "pw") (Some "s3cret")
               {| LoginRequest.username := Some "admin";
                  LoginRequest.password := Some "pw" |} in
  LoginResponse.token res = Some "s3cret"
  /\ authenticate (Some "s3cret") (Some "Bearer s3cret") = true.
Proof.
  cbn zeta.
  pose proof (login_token_authenticates (Some "admin") (Some "pw") (Some "s3cret")
                {| LoginRequest.username := Some "admin";
                   LoginRequest.password := Some "pw" |}) as (_ & H & _).
  destruct (H eq_refl) as [Htoken Hauth].
  split; [exact Htoken |]. exact (Hauth "s3cret" eq_refl).
Defined.

(** ** Sending, the other outcomes *)

(** X3.  A request in which one of [from], [to], [subject], [html] is
    missing or empty is answered 400, whoever the sender is, and no command
    is sent for it. *)
Theorem send_missing_field (S3_BUCKET : string) (req : SendEmailRequest.t) :
  JS.truthy (SendEmailRequest.from req) = false
  \/ JS.truthy (SendEmailRequest.to req) = false
  \/ JS.truthy (SendEmailRequest.subject req) = false
  \/ JS.truthy (SendEmailRequest.html req) = false ->
  sendEmail S3_BUCKET req
    = Ret {| status := 400; body := JsonMessage "Missing required fields" |}
  /\ forall W (cl : Client W) (w : W), trace cl (sendEmail S3_BUCKET req) w = [].
Proof.
  intros H.
  assert (Hmissing : missingFields req = true).
  { unfold missingFields. apply negb_true_iff.
    destruct H as [-> | [-> | [-> | ->]]]; by rewrite ?andb_false_r. }
  assert (Heq : sendEmail S3_BUCKET req
                = Ret {| status := 400; body := JsonMessage "Missing required fields" |}).
  { unfold sendEmail. by rewrite Hmissing. }
  split; [done |]. intros W cl w. by rewrite Heq.
Qed.

Lemma send_missing_field_witness :
  sendEmail Sample.bucket
    {| SendEmailRequest.from := Some "mallory@example.org";
       SendEmailRequest.to := Some "ann@example.org";
       SendEmailRequest.cc := None; SendEmailRequest.bcc := None;
       SendEmailRequest.subject := Some ""; SendEmailRequest.html := Some "<p>Hi</p>";
       SendEmailRequest.files := None |}
  = Ret {| status := 400; body := JsonMessage "Missing required fields" |}.
Proof.
  refine (proj1 (send_missing_field Sample.bucket _ _)).
  right. right. left. reflexivity.
Defined.

Lemma trace_sendEmail {W} (cl : Client W) S3_BUCKET req (w : W) :
  missingFields req = false ->
  includes getVerifiedSenders (default "" (SendEmailRequest.from req)) = true ->
  trace cl (sendEmail S3_BUCKET req) w
  = call (SendEmailCommand (sendEmailInput req))
    :: match answer cl (SendEmailCommand (sendEmailInput req)) w with
       | (Ok info, _) =>
           [call (PutObjectCommand S3_BUCKET (SENT_PREFIX +:+ MessageId info)
                    (rawEmailOf req))]
       | (Err _, _) => []
       end.
Proof.
  intros Hfields Hallowed. unfold sendEmail. rewrite Hfields, Hallowed. cbn [negb].
  rewrite trace_bind, trace_bindOk, trace_send, !run_bindOk, !run_send.
  destruct (answer cl (SendEmailCommand _) w) as [[info | e] w1]; cbn [fst snd].
  - rewrite trace_bindOk, trace_send, !run_bindOk, !run_send.
    by destruct (answer cl (PutObjectCommand _ _ _) w1) as [[[] | e] w2].
  - done.
Qed.

(** X4.  Against the store in memory, a valid request from a listed sender
    is dispatched once and then stored once: the route answers 200 with
    the id the outbound service assigned; the object at [sent/] followed by
    that id holds exactly the bytes that were dispatched; no other key of
    the store changes. *)
Theorem send_stores_what_it_dispatches (bucket : string) (req : SendEmailRequest.t)
    (w : Mem.World) :
  missingFields req = false ->
  default "" (SendEmailRequest.from req) ∈ getVerifiedSenders ->
  let cl := Mem.client Mem.noFaults bucket in
  let outcome := run cl (sendEmail bucket req) w in
  let id := "msg-" +:+ numberToString (length (Mem.outbox w)) in
  outcome.1 = {| status := 200; body := JsonSent "Email sent" id |}
  /\ trace cl (sendEmail bucket req) w
     = [call (SendEmailCommand (sendEmailInput req));
        call (PutObjectCommand bucket (SENT_PREFIX +:+ id) (Data (sendEmailInput req)))]
  /\ Mem.outbox outcome.2 = Mem.outbox w ++ [sendEmailInput req]
  /\ Mem.Body <$> Mem.objects outcome.2 !! (SENT_PREFIX +:+ id)
     = Some (Data (sendEmailInput req))
  /\ forall key, key <> SENT_PREFIX +:+ id ->
                 Mem.objects outcome.2 !! key = Mem.objects w !! key.
Proof.
  intros Hfields Hallowed%includes_spec cl outcome id.
  unfold outcome. rewrite run_sendEmail, trace_sendEmail by done.
  cbn [cl answer Mem.client Mem.noFaults Mem.rejects Mem.perform MessageId].
  rewrite inBucket_same. cbn [fst snd Mem.store Mem.objects Mem.outbox].
  fold id. repeat split.
  - by rewrite lookup_insert_eq.
  - intros key Hkey. by rewrite lookup_insert_ne.
Qed.

Lemma send_stores_what_it_dispatches_witness :
  (run Sample.client (sendEmail Sample.bucket Sample.request) Sample.world).1
  = {| status := 200; body := JsonSent "Email sent" "msg-0" |}.
Proof.
  refine (proj1 (send_stores_what_it_dispatches Sample.bucket Sample.request
                   Sample.world eq_refl _)).
  apply list_elem_of_In. simpl. tauto.
Defined.

(** X5.  When the outbound service rejects the message, the route answers
    500 with the error of the service and nothing is written to the store:
    the dispatch is the only command sent. *)
Theorem send_rejected_dispatch {W} (cl : Client W) (S3_BUCKET : string)
    (req : SendEmailRequest.t) (w w1 : W) (e : Error) :
  missingFields req = false ->
  default "" (SendEmailRequest.from req) ∈ getVerifiedSenders ->
  answer cl (SendEmailCommand (sendEmailInput req)) w = (Err e, w1) ->
  run cl (sendEmail S3_BUCKET req) w
    = ({| status := 500; body := JsonFailure "Failed to send email" e |}, w1)
  /\ trace cl (sendEmail S3_BUCKET req) w = [call (SendEmailCommand (sendEmailInput req))].
Proof.
  intros Hfields Hallowed%includes_spec Hses.
  by rewrite run_sendEmail, trace_sendEmail, Hses.
Qed.

Lemma send_rejected_dispatch_witness :
  run (Mem.client Scenario.throttled Sample.bucket)
      (sendEmail Sample.bucket Sample.request) Sample.world
  = ({| status := 500; body := JsonFailure "Failed to send email" "Throttling" |},
     Sample.world).
Proof.
  refine (proj1 (send_rejected_dispatch (Mem.client Scenario.throttled Sample.bucket)
                   Sample.bucket Sample.request Sample.world
                   Sample.world "Throttling" eq_refl _ eq_refl)).
  apply list_elem_of_In. simpl. tauto.
Defined.

(** ** The raw message *)
Lemma contains_startsWith (pat s : string) :
  startsWith pat s = true -> contains pat s = true.
Proof. intros H. destruct s; simpl; by rewrite H. Qed.

Lemma contains_middle (pat a b : string) : contains pat (a +:+ pat +:+ b) = true.
Proof. apply contains_append, contains_startsWith, startsWith_append. Qed.



(** ** Recipients *)
Lemma split_comma_cons (s : string) : exists p ps, JS.split_comma s = p :: ps.
Proof.
  induction s as [| c s IH]; [by eexists _, _ |]. cbn [JS.split_comma].
  destruct (Ascii.eqb c ","); [by eexists _, _ |].
  destruct IH as (p & ps & ->). by eexists _, _.
Qed.

Lemma join_split (s : string) : joinComma (JS.split_comma s) = s.
Proof.
  induction s as [| c s IH]; [done |]. cbn [JS.split_comma].
  destruct (Ascii.eqb_spec c ",") as [-> |].
  - destruct (split_comma_cons s) as (p & ps & E). rewrite E in *.
    cbn [joinComma]. change ("" +:+ ?x) with x. rewrite <- IH. by destruct ps.
  - destruct (split_comma_cons s) as (p & ps & E). rewrite E in *.
    rewrite <- IH. destruct ps; [done |]. cbn [joinComma]. by rewrite append_cons.
Qed.

Lemma contains_char_cons (x c : ascii) (s : string) :
  contains (String x "") (String c s) = Ascii.eqb x c || contains (String x "") s.
Proof. simpl. by rewrite andb_true_r. Qed.

Lemma split_comma_pieces (s : string) :
  Forall (fun piece => contains "," piece = false) (JS.split_comma s).
Proof.
  induction s as [| c s IH]; [by repeat constructor |]. cbn [JS.split_comma].
  destruct (Ascii.eqb c ",") eqn:E; [by constructor |].
  destruct (split_comma_cons s) as (p & ps & Hs). rewrite Hs in *.
  inversion IH as [| ? ? Hp Hps]; subst. constructor; [| done].
  by rewrite contains_char_cons, Ascii.eqb_sym, E, Hp.
Qed.

(** X7.  The destination of a dispatch is the recipient fields cut at
    their commas and nothing else: joined with commas again, the To
    addresses give the [to] field back, and no address contains a comma;
    a Cc or Bcc field that is missing or empty gives no address. *)
Theorem recipients_are_the_fields (req : SendEmailRequest.t) :
  let input := sendEmailInput req in
  joinComma (ToAddresses input) = default "" (SendEmailRequest.to req)
  /\ ToAddresses input <> []
  /\ Forall (fun a => contains "," a = false)
       (ToAddresses input ++ CcAddresses input ++ BccAddresses input)
  /\ joinComma (CcAddresses input) = JS.or_else (SendEmailRequest.cc req) ""
  /\ joinComma (BccAddresses input) = JS.or_else (SendEmailRequest.bcc req) ""
  /\ (JS.truthy (SendEmailRequest.cc req) = false -> CcAddresses input = [])
  /\ (JS.truthy (SendEmailRequest.bcc req) = false -> BccAddresses input = []).
Proof.
  cbn zeta. unfold sendEmailInput, addresses. cbn [ToAddresses CcAddresses BccAddresses].
  split; [apply join_split |].
  split; [by destruct (split_comma_cons (default "" (SendEmailRequest.to req)))
            as (p & ps & ->) |].
  split.
  { rewrite !Forall_app. split; [apply split_comma_pieces |].
    split; match goal with
           | |- context [JS.truthy ?x] =>
               destruct (JS.truthy x); [apply split_comma_pieces | constructor]
           end. }
  split; [| split; [| split]].
  - destruct (SendEmailRequest.cc req) as [[| c s] |]; try done. apply join_split.
  - destruct (SendEmailRequest.bcc req) as [[| c s] |]; try done. apply join_split.
  - by intros ->.
  - by intros ->.
Qed.

(** ** Listing, the commands *)
Section ListingTrace.
Context {W : Type} (cl : Client W).
Variable S3_BUCKET : string.
Variable simpleParser : string -> result Parsed.t.

Local Abbreviation getCall :=
  (fun obj : S3Object.t => call (GetObjectCommand S3_BUCKET (S3Object.Key obj))).

Lemma trace_fetchEmail obj (w : W) :
  trace cl (fetchEmail S3_BUCKET simpleParser obj) w = [getCall obj].
Proof.
  unfold fetchEmail. rewrite trace_bindOk, trace_send, run_send.
  destruct (answer cl _ w) as [[raw | e] w1]; cbn [fst snd]; [| done].
  rewrite trace_bindOk. cbn [trace run fst snd app].
  by destruct (simpleParser raw).
Qed.

Lemma trace_mapAsync_fetch objs (w : W) :
  trace cl (mapAsync (fetchEmail S3_BUCKET simpleParser) objs) w = List.map getCall objs.
Proof.
  revert w. induction objs as [| obj objs IH]; intros w; [done |].
  cbn [mapAsync List.map]. rewrite trace_bind, trace_fetchEmail, trace_bind, IH.
  cbn [trace]. by rewrite app_nil_r.
Qed.

Lemma trace_getEmailsFromS3 prefix (w : W) :
  trace cl (getEmailsFromS3 S3_BUCKET simpleParser prefix) w
  = call (listCommand S3_BUCKET prefix)
    :: match (answer cl (listCommand S3_BUCKET prefix) w).1 with
       | Ok listRes =>
           List.map getCall (selectObjects prefix (default [] (Contents listRes)))
       | Err _ => []
       end.
Proof.
  unfold getEmailsFromS3. rewrite trace_bindOk, trace_send, run_send.
  destruct (answer cl (listCommand S3_BUCKET prefix) w) as [[listRes | e] w1];
    cbn [fst snd app]; [| done].
  rewrite trace_bind, trace_mapAsync_fetch. f_equal.
  rewrite trace_bindOk. cbn [trace run fst snd app].
  destruct (promiseAll _); cbn [trace]; by rewrite app_nil_r.
Qed.
End ListingTrace.

(** X8.  A listing only reads: whatever the clients answer, the route
    sends the one listing request of its folder and then, when that is
    answered, one get for each selected object, in the order of the view,
    also for the objects behind one whose fetch failed; it sends nothing
    else.  The inbox is the folder listed with the delimiter. *)
Theorem listing_only_reads {W} (cl : Client W) (S3_BUCKET : string)
    (simpleParser : string -> result Parsed.t) (prefix failure : string) (w : W) :
  trace cl (listRoute S3_BUCKET simpleParser prefix failure) w
  = call (ListObjectsV2Command S3_BUCKET prefix
            (if String.eqb prefix "" then Some "/" else None))
    :: match (answer cl (listCommand S3_BUCKET prefix) w).1 with
       | Ok listRes =>
           List.map (fun obj => call (GetObjectCommand S3_BUCKET (S3Object.Key obj)))
             (selectObjects prefix (default [] (Contents listRes)))
       | Err _ => []
       end.
Proof.
  unfold listRoute. rewrite trace_bind, trace_getEmailsFromS3.
  destruct (run cl (getEmailsFromS3 _ _ _) w).1; cbn [trace]; by rewrite app_nil_r.
Qed.

(** X9.  When the listing request is answered without contents, or with
    nothing but the prefix marker and empty objects, the view is empty
    with [totalCount] 0 and the route answers 200. *)
Theorem listing_of_empty_folder {W} (cl : Client W) (S3_BUCKET : string)
    (simpleParser : string -> result Parsed.t) (prefix failure : string) (w w1 : W)
    (listRes : ListObjectsV2Output) :
  answer cl (listCommand S3_BUCKET prefix) w = (Ok listRes, w1) ->
  Forall (fun obj => S3Object.Key obj = prefix \/ (S3Object.Size obj <= 0)%Z)
    (default [] (Contents listRes)) ->
  run cl (listRoute S3_BUCKET simpleParser prefix failure) w
  = ({| status := 200; body := JsonMailbox {| emails := []; totalCount := 0 |} |}, w1).
Proof.
  intros Hlist Hnone.
  assert (Hsel : selectObjects prefix (default [] (Contents listRes)) = []).
  { unfold selectObjects.
    replace (List.filter (isMessage prefix) (default [] (Contents listRes))) with
      (@nil S3Object.t); [done |].
    symmetry. induction Hnone as [| obj l Hobj _ IH]; [done |].
    cbn [List.filter]. rewrite <- IH. unfold isMessage.
    destruct Hobj as [-> | Hsize].
    - by rewrite String.eqb_refl.
    - apply Z.ltb_ge in Hsize. rewrite Hsize. by rewrite andb_false_r. }
  rewrite run_listRoute, run_getEmailsFromS3, Hlist. cbn zeta. by rewrite Hsel.
Qed.

Lemma listing_of_empty_folder_witness :
  run Sample.client (getSent Sample.bucket Sample.parser) (Mem.remove "sent/mid1"
    (Mem.remove "sent/mid2" Sample.world))
  = ({| status := 200; body := JsonMailbox {| emails := []; totalCount := 0 |} |},
     Mem.remove "sent/mid1" (Mem.remove "sent/mid2" Sample.world)).
Proof.
  refine (listing_of_empty_folder Sample.client Sample.bucket Sample.parser "sent/"
            "Failed to load sent items" _ _
            {| Contents := Some [S3Object.mk "sent/" 0 1] |} _ _).
  - vm_compute. reflexivity.
  - repeat constructor.
Defined.

(** ** Moving several messages *)
Section MoveFacts.
Context {W : Type} (cl : Client W).
Variable S3_BUCKET : string.

Local Abbreviation copyOf :=
  (fun id : string =>
     CopyObjectCommand S3_BUCKET (S3_BUCKET +:+ "/" +:+ id) (trashKey id)).
Local Abbreviation deleteOf := (fun id : string => DeleteObjectCommand S3_BUCKET id).

Lemma run_moveEach_cons id rest (w : W) :
  run cl (moveEach S3_BUCKET (id :: rest)) w
  = match answer cl (copyOf id) w with
    | (Ok _, w1) =>
        match answer cl (deleteOf id) w1 with
        | (Ok _, w2) => run cl (moveEach S3_BUCKET rest) w2
        | (Err e, w2) => (Err e, w2)
        end
    | (Err e, w1) => (Err e, w1)
    end.
Proof.
  cbn [moveEach]. rewrite run_bindOk, run_send.
  destruct (answer cl (copyOf id) w) as [[[] | e] w1]; cbn [fst snd]; [| done].
  rewrite run_bindOk, run_send.
  by destruct (answer cl (deleteOf id) w1) as [[[] | e] w2].
Qed.

Lemma trace_moveEach_cons id rest (w : W) :
  trace cl (moveEach S3_BUCKET (id :: rest)) w
  = call (copyOf id)
    :: match answer cl (copyOf id) w with
       | (Ok _, w1) =>
           call (deleteOf id)
           :: match answer cl (deleteOf id) w1 with
              | (Ok _, w2) => trace cl (moveEach S3_BUCKET rest) w2
              | (Err _, _) => []
              end
       | (Err _, _) => []
       end.
Proof.
  cbn [moveEach]. rewrite trace_bindOk, trace_send, run_send.
  destruct (answer cl (copyOf id) w) as [[[] | e] w1]; cbn [fst snd app]; [| done].
  rewrite trace_bindOk, trace_send, run_send.
  by destruct (answer cl (deleteOf id) w1) as [[[] | e] w2].
Qed.

Lemma run_moveEach_app ids ids' (w : W) :
  run cl (moveEach S3_BUCKET (ids ++ ids')) w
  = match run cl (moveEach S3_BUCKET ids) w with
    | (Ok _, w1) => run cl (moveEach S3_BUCKET ids') w1
    | (Err e, w1) => (Err e, w1)
    end.
Proof.
  revert w. induction ids as [| id ids IH]; intros w; [done |].
  rewrite <- app_comm_cons, !run_moveEach_cons.
  destruct (answer cl (copyOf id) w) as [[[] | e] w1]; [| done].
  destruct (answer cl (deleteOf id) w1) as [[[] | e] w2]; [| done].
  apply IH.
Qed.

Lemma trace_moveEach_app ids ids' (w : W) :
  trace cl (moveEach S3_BUCKET (ids ++ ids')) w
  = trace cl (moveEach S3_BUCKET ids) w
    ++ match run cl (moveEach S3_BUCKET ids) w with
       | (Ok _, w1) => trace cl (moveEach S3_BUCKET ids') w1
       | (Err _, _) => []
       end.
Proof.
  revert w. induction ids as [| id ids IH]; intros w; [done |].
  rewrite <- app_comm_cons, !trace_moveEach_cons, run_moveEach_cons.
  destruct (answer cl (copyOf id) w) as [[[] | e] w1]; [| done].
  destruct (answer cl (deleteOf id) w1) as [[[] | e] w2]; [| done].
  cbn [app]. by rewrite IH.
Qed.

Lemma run_moveToTrash ids (w : W) :
  ids <> [] ->
  run cl (moveToTrash S3_BUCKET (Some ids)) w
  = (match (run cl (moveEach S3_BUCKET ids) w).1 with
     | Ok _ =>
         {| status := 200;
            body := JsonSuccess true
              ("Moved " +:+ numberToString (length ids) +:+ " email(s) to trash.") |}
     | Err detail =>
         {| status := 500; body := JsonFailure "Failed to move emails to trash" detail |}
     end, (run cl (moveEach S3_BUCKET ids) w).2).
Proof.
  intros Hne. destruct ids as [| id ids]; [done |].
  unfold moveToTrash. rewrite run_bind.
  by destruct (run cl (moveEach S3_BUCKET (id :: ids)) w) as [[[] | e] w'].
Qed.

Lemma trace_moveToTrash ids (w : W) :
  ids <> [] ->
  trace cl (moveToTrash S3_BUCKET (Some ids)) w = trace cl (moveEach S3_BUCKET ids) w.
Proof.
  intros Hne. destruct ids as [| id ids]; [done |].
  unfold moveToTrash. rewrite trace_bind.
  destruct (run cl (moveEach S3_BUCKET (id :: ids)) w) as [[[] | e] w'];
    cbn [fst snd trace]; by rewrite app_nil_r.
Qed.
End MoveFacts.

(** X10.  Without a list of ids, or with an empty one, both folder routes
    answer 400 and send no command. *)
Theorem no_ids_no_commands (S3_BUCKET : string) (emailIds : option (list string)) :
  emailIds = None \/ emailIds = Some [] ->
  let refused := Ret {| status := 400; body := JsonMessage "No email IDs provided" |} in
  moveToTrash S3_BUCKET emailIds = refused
  /\ deletePermanently S3_BUCKET emailIds = refused
  /\ forall W (cl : Client W) (w : W),
       trace cl (moveToTrash S3_BUCKET emailIds) w = []
       /\ trace cl (deletePermanently S3_BUCKET emailIds) w = [].
Proof. intros [-> | ->]; by repeat split. Qed.

Lemma no_ids_no_commands_witness :
  moveToTrash Sample.bucket (Some [])
  = Ret {| status := 400; body := JsonMessage "No email IDs provided" |}.
Proof.
  refine (proj1 (no_ids_no_commands Sample.bucket (Some []) _)). by right.
Defined.

(** X11.  The loop stops at the first command that is rejected.  When the
    ids in front have been moved and the copy of the next id is rejected,
    or its copy is made and its delete is rejected, the route answers 500
    with that error, the rejected command is the last one sent, and no
    command is sent for the ids behind; the moves made before stay. *)
Theorem move_stops_at_first_error {W} (cl : Client W) (S3_BUCKET : string)
    (moved : list string) (id : string) (behind : list string) (w w1 : W) :
  run cl (moveEach S3_BUCKET moved) w = (Ok tt, w1) ->
  let ids := moved ++ id :: behind in
  let copy := CopyObjectCommand S3_BUCKET (S3_BUCKET +:+ "/" +:+ id)
                (TRASH_PREFIX +:+ path.basename id) in
  let failed e :=
    {| status := 500; body := JsonFailure "Failed to move emails to trash" e |} in
  (forall e w2,
      answer cl copy w1 = (Err e, w2) ->
      run cl (moveToTrash S3_BUCKET (Some ids)) w = (failed e, w2)
      /\ trace cl (moveToTrash S3_BUCKET (Some ids)) w
         = trace cl (moveEach S3_BUCKET moved) w ++ [call copy])
  /\ (forall e w2 w3,
        answer cl copy w1 = (Ok tt, w2) ->
        answer cl (DeleteObjectCommand S3_BUCKET id) w2 = (Err e, w3) ->
        run cl (moveToTrash S3_BUCKET (Some ids)) w = (failed e, w3)
        /\ trace cl (moveToTrash S3_BUCKET (Some ids)) w
           = trace cl (moveEach S3_BUCKET moved) w
             ++ [call copy; call (DeleteObjectCommand S3_BUCKET id)]).
Proof.
  intros Hmoved ids copy failed.
  assert (Hne : ids <> []) by (unfold ids; by destruct moved).
  rewrite run_moveToTrash, trace_moveToTrash by done. unfold ids.
  rewrite run_moveEach_app, trace_moveEach_app, Hmoved.
  rewrite run_moveEach_cons, trace_moveEach_cons. subst copy.
  change (TRASH_PREFIX +:+ path.basename id) with (trashKey id).
  split.
  - intros e w2 ->. done.
  - intros e w2 w3 -> ->. done.
Qed.

Lemma move_stops_at_first_error_witness :
  run Sample.client (moveToTrash Sample.bucket (Some ["key1"; "gone"; "key2"])) Sample.world
  = ({| status := 500;
        body := JsonFailure "Failed to move emails to trash" Mem.noSuchKey |},
     Mem.remove "key1" (Mem.store "trash/key1" "hello" Sample.world)).
Proof.
  refine (proj1 (proj1 (move_stops_at_first_error Sample.client Sample.bucket
                          ["key1"] "gone" ["key2"] Sample.world
                          (Mem.remove "key1" (Mem.store "trash/key1" "hello" Sample.world))
                          _) _ _ _)).
  - vm_compute. reflexivity.
  - vm_compute. reflexivity.
Defined.

(** X12.  A move that is interrupted between its two steps duplicates the
    message and does not lose it: when the copy is made and the delete is
    rejected, the route answers 500, the object is still at its key, and
    an object with the same bytes is at its trash key. *)
Theorem interrupted_move_duplicates (f : Mem.Faults) (bucket id : string)
    (w : Mem.World) (o : Mem.Object) (e : Error) :
  Mem.rejects f _ (CopyObjectCommand bucket (bucket +:+ "/" +:+ id) (trashKey id)) = None ->
  Mem.rejects f _ (DeleteObjectCommand bucket id) = Some e ->
  Mem.objects w !! id = Some o ->
  trashKey id <> id ->
  let outcome := run (Mem.client f bucket) (moveToTrash bucket (Some [id])) w in
  outcome.1 = {| status := 500; body := JsonFailure "Failed to move emails to trash" e |}
  /\ Mem.objects outcome.2 !! id = Some o
  /\ Mem.Body <$> Mem.objects outcome.2 !! trashKey id = Some (Mem.Body o).
Proof.
  intros Hcopy Hdelete Ho Hne outcome. unfold outcome.
  rewrite run_moveToTrash_one, run_move_one, Hcopy, Ho, eqb_trashKey by done.
  cbn zeta. rewrite Hdelete.
  cbn [fst snd Mem.store Mem.objects]. split; [done |]. split.
  - rewrite lookup_insert_ne by done. done.
  - by rewrite lookup_insert_eq.
Qed.

Lemma interrupted_move_duplicates_witness :
  let outcome :=
    run (Mem.client Scenario.noDelete Sample.bucket)
        (moveToTrash Sample.bucket (Some ["key1"])) Sample.world in
  Mem.objects outcome.2 !! "key1" = Some {| Mem.Body := "hello"; Mem.Modified := 5 |}
  /\ Mem.Body <$> Mem.objects outcome.2 !! "trash/key1" = Some "hello".
Proof.
  cbn zeta.
  refine (proj2 (interrupted_move_duplicates Scenario.noDelete Sample.bucket "key1"
                   Sample.world {| Mem.Body := "hello"; Mem.Modified := 5 |}
                   "Access Denied" eq_refl eq_refl _ _)).
  - vm_compute. reflexivity.
  - vm_compute. discriminate.
Defined.

(** X13.  Only the basename of a key survives a move, so two messages
    with the same basename share one trash key.  Moved in one request
    against a store without faults, they are reported as moved exactly
    when neither of them is at that trash key already; and then both are
    gone from their keys, the route reports two messages moved, and the
    trash key holds the bytes of the second one only: the bytes of the
    first are in no object the move has written. *)
Theorem same_basename_overwrites (bucket id1 id2 : string) (w : Mem.World)
    (o1 o2 : Mem.Object) :
  id1 <> id2 ->
  path.basename id1 = path.basename id2 ->
  Mem.objects w !! id1 = Some o1 ->
  Mem.objects w !! id2 = Some o2 ->
  let outcome :=
    run (Mem.client Mem.noFaults bucket) (moveToTrash bucket (Some [id1; id2])) w in
  (status outcome.1 = 200 <-> trashKey id1 <> id1 /\ trashKey id1 <> id2)
  /\ (status outcome.1 = 200 ->
      outcome.1 = {| status := 200; body := JsonSuccess true "Moved 2 email(s) to trash." |}
      /\ Mem.objects outcome.2 !! id1 = None
      /\ Mem.objects outcome.2 !! id2 = None
      /\ Mem.Body <$> Mem.objects outcome.2 !! trashKey id1 = Some (Mem.Body o2)
      /\ forall key, key <> id1 -> key <> id2 -> key <> trashKey id1 ->
                     Mem.objects outcome.2 !! key = Mem.objects w !! key).
Proof.
  intros Hids Hbase Ho1 Ho2 outcome.
  assert (Hkey : trashKey id2 = trashKey id1) by (unfold trashKey; by rewrite Hbase).
  unfold outcome. rewrite run_moveToTrash by done.
  change [id1; id2] with ([id1] ++ [id2]).
  rewrite run_moveEach_app, run_move_one. cbn [Mem.noFaults Mem.rejects].
  rewrite Ho1.
  destruct (String.eqb id1 (trashKey id1)) eqn:E1.
  { apply String.eqb_eq in E1. cbn [fst snd status].
    split; [| done]. split; [done |]. intros [H _]. by destruct H. }
  apply String.eqb_neq in E1. assert (Hne1 : trashKey id1 <> id1) by congruence.
  cbn zeta. rewrite run_move_one. cbn [Mem.noFaults Mem.rejects].
  cbn [Mem.remove Mem.store Mem.objects].
  rewrite lookup_delete_ne by done. rewrite Hkey.
  destruct (decide (trashKey id1 = id2)) as [Heq | Hne2].
  { rewrite Heq, lookup_insert_eq, String.eqb_refl. cbn [fst snd status].
    split; [| done]. split; [done |]. intros [_ H]. by destruct H. }
  rewrite lookup_insert_ne, Ho2 by done.
  rewrite (proj2 (String.eqb_neq id2 (trashKey id1))) by congruence.
  cbn [fst snd status Mem.remove Mem.store Mem.objects Mem.now].
  split; [done |]. intros _.
  split; [done |]. split; [| split; [| split]].
  - rewrite lookup_delete_ne, lookup_insert_ne by done. apply lookup_delete_eq.
  - apply lookup_delete_eq.
  - rewrite lookup_delete_ne by (intros H; by apply Hne2). by rewrite lookup_insert_eq.
  - intros key H1 H2 H3.
    by rewrite lookup_delete_ne, lookup_insert_ne, lookup_delete_ne, lookup_insert_ne.
Qed.

Lemma same_basename_overwrites_witness :
  let outcome :=
    run Sample.client (moveToTrash Sample.bucket (Some ["key1"; "sent/key1"]))
      Scenario.worldWithCopy in
  Mem.objects outcome.2 !! "key1" = None
  /\ Mem.objects outcome.2 !! "sent/key1" = None
  /\ Mem.Body <$> Mem.objects outcome.2 !! "trash/key1" = Some "hello again".
Proof.
  cbn zeta.
  pose proof (same_basename_overwrites Sample.bucket "key1" "sent/key1"
                Scenario.worldWithCopy
                {| Mem.Body := "hello"; Mem.Modified := 5 |}
                {| Mem.Body := "hello again"; Mem.Modified := 10 |}) as H.
  destruct H as (_ & H); try (vm_compute; congruence).
  destruct H as (_ & H1 & H2 & H3 & _); [vm_compute; reflexivity |].
  exact (conj H1 (conj H2 H3)).
Defined.

Lemma component_noSep (l : list ascii) :
  forallb (fun c => negb (path.isSep c)) (path.component l) = true.
Proof.
  induction l as [| c l IH]; [done |]. cbn [path.component].
  destruct (path.isSep c) eqn:E; [done |]. simpl. by rewrite E, IH.
Qed.

Lemma basename_noSep (p : string) : noSep (path.basename p) = true.
Proof.
  unfold noSep, path.basename. rewrite list_ascii_of_string_of_list_ascii.
  apply forallb_forall. intros c Hc%in_rev.
  exact (proj1 (forallb_forall _ _) (component_noSep _) c Hc).
Qed.

(** X14.  Every message is moved to a key directly under [trash/]: the
    trash key of an id is [trash/] followed by a name without separator,
    whatever directories the id has.  Unless that name is empty, the
    trash key is its own trash key. *)
Theorem trash_key_is_flat (id : string) :
  exists name,
    trashKey id = "trash/" +:+ name
    /\ noSep name = true
    /\ (name <> "" -> trashKey (trashKey id) = trashKey id).
Proof.
  exists (path.basename id). split; [done |]. split; [apply basename_noSep |].
  intros Hne. unfold trashKey at 1 3. f_equal. unfold trashKey.
  change (TRASH_PREFIX +:+ path.basename id) with ("trash" +:+ "/" +:+ path.basename id).
  apply basename_in_dir; [done | apply basename_noSep].
Qed.

(** ** Downloading an attachment *)
Section DownloadFacts.
Context {W : Type} (cl : Client W).
Variable S3_BUCKET : string.
Variable simpleParser : string -> result Parsed.t.

Local Abbreviation download :=
  (fun emailId index =>
     downloadAttachment S3_BUCKET simpleParser
       {| DownloadQuery.emailId := Some emailId; DownloadQuery.index := Some index |}).

Lemma run_downloadAttachment emailId index (w : W) :
  emailId <> "" ->
  run cl (download emailId index) w
  = (match (answer cl (GetObjectCommand S3_BUCKET emailId) w).1 with
     | Ok rawEmail =>
         match simpleParser rawEmail with
         | Ok parsed =>
             match arrayGet (Parsed.attachments parsed) (parseInt10 index) with
             | Some attachment => sendAttachment attachment
             | None =>
                 {| status := 404; body := TextBody "Attachment not found at that index." |}
             end
         | Err _ => {| status := 500; body := TextBody "Could not download attachment." |}
         end
     | Err _ => {| status := 500; body := TextBody "Could not download attachment." |}
     end, (answer cl (GetObjectCommand S3_BUCKET emailId) w).2).
Proof.
  intros Hid. unfold downloadAttachment.
  cbn [DownloadQuery.index DownloadQuery.emailId].
  destruct emailId as [| c s]; [done |]. cbn [JS.truthy].
  change (default "" (Some (String c s))) with (String c s).
  rewrite run_bind, run_bindOk, run_send.
  destruct (answer cl _ w) as [[raw | e] w1]; cbn [fst snd run]; [| done].
  rewrite run_bindOk. cbn [run fst snd].
  destruct (simpleParser raw) as [parsed | e]; cbn [run fst snd]; [| done].
  by destruct (arrayGet _ _).
Qed.

Lemma trace_downloadAttachment emailId index (w : W) :
  emailId <> "" ->
  trace cl (download emailId index) w = [call (GetObjectCommand S3_BUCKET emailId)].
Proof.
  intros Hid. unfold downloadAttachment.
  cbn [DownloadQuery.index DownloadQuery.emailId].
  destruct emailId as [| c s]; [done |]. cbn [JS.truthy].
  change (default "" (Some (String c s))) with (String c s).
  rewrite trace_bind, trace_bindOk, trace_send, run_bindOk, run_send.
  destruct (answer cl _ w) as [[raw | e] w1]; cbn [fst snd run trace app]; [| done].
  rewrite trace_bindOk, run_bindOk. cbn [run trace fst snd app].
  destruct (simpleParser raw) as [parsed | e]; cbn [run trace fst snd app]; [| done].
  by destruct (arrayGet _ _).
Qed.
End DownloadFacts.

(** *** The two headers of a download *)

Lemma validHeaderValue_append (a b : string) :
  validHeaderValue (a +:+ b) = validHeaderValue a && validHeaderValue b.
Proof.
  induction a as [| c a IH]; [done |].
  rewrite append_cons. cbn [validHeaderValue]. by rewrite IH, andb_assoc.
Qed.

(** The header with the file name can be set exactly when the file name
    has characters of a header only. *)
Lemma contentDisposition_valid (attachment : Attachment.t) :
  validHeaderValue (contentDisposition attachment)
  = validHeaderValue (default "undefined" (Attachment.filename attachment)).
Proof.
  unfold contentDisposition. rewrite !validHeaderValue_append.
  change (validHeaderValue "attachment; filename=") with true.
  change (validHeaderValue DQ) with true.
  by rewrite andb_true_r.
Qed.

(** A file name with a line feed: the first header cannot be set.  A
    content type with one: the second cannot, and the first stays. *)
Example sendAttachment_bad_name :
  sendAttachment
    {| Attachment.filename := Some ("a" +:+ LF +:+ "b.txt");
       Attachment.contentType := "text/plain";
       Attachment.size := 1; Attachment.content := "x" |}
  = {| status := 500; body := TextBody "Could not download attachment." |}.
Proof. reflexivity. Qed.

Example sendAttachment_bad_type :
  sendAttachment
    {| Attachment.filename := Some "b.txt";
       Attachment.contentType := "text/plain" +:+ LF;
       Attachment.size := 1; Attachment.content := "x" |}
  = {| status := 500;
       body := DispositionText ("attachment; filename=" +:+ DQ +:+ "b.txt" +:+ DQ)
                 "Could not download attachment." |}.
Proof. reflexivity. Qed.

Lemma sendAttachment_safe (attachment : Attachment.t) :
  headerSafe attachment = true -> sendAttachment attachment = fileResponse attachment.
Proof.
  unfold headerSafe, sendAttachment. rewrite contentDisposition_valid.
  by intros [-> ->]%andb_true_iff.
Qed.

Lemma sendAttachment_unsafe (attachment : Attachment.t) :
  headerSafe attachment = false ->
  status (sendAttachment attachment) = 500
  /\ attachmentBytes (sendAttachment attachment) = None.
Proof.
  unfold headerSafe, sendAttachment. rewrite contentDisposition_valid.
  destruct (validHeaderValue (default _ _)); [| done].
  by destruct (validHeaderValue (Attachment.contentType attachment)).
Qed.

Lemma sendAttachment_bytes (attachment : Attachment.t) (bytes : string) :
  attachmentBytes (sendAttachment attachment) = Some bytes ->
  headerSafe attachment = true /\ Attachment.content attachment = bytes.
Proof.
  destruct (headerSafe attachment) eqn:E.
  - rewrite sendAttachment_safe by done. by intros [= <-].
  - destruct (sendAttachment_unsafe attachment E) as [_ ->]. done.
Qed.

Lemma digitsFrom_uint (d : Decimal.uint) (a : nat) :
  digitsFrom (Some (Z.of_nat a)) (NilEmpty.string_of_uint d)
  = Some (Z.of_nat (Nat.of_uint_acc d a)).
Proof.
  revert a. induction d as [| d IH | d IH | d IH | d IH | d IH | d IH | d IH | d IH
                            | d IH | d IH]; intros a; [done | ..];
    cbn [NilEmpty.string_of_uint digitsFrom Nat.of_uint_acc];
    rewrite <- IH;
    match goal with
    | |- context [digitValue ?c] =>
        let v := eval vm_compute in (digitValue c) in
        change (digitValue c) with v
    end; cbv beta iota;
    apply (f_equal (fun z => digitsFrom (Some z) (NilEmpty.string_of_uint d)));
    rewrite Nat.tail_mul_spec; change (default 0%Z (Some (Z.of_nat a))) with (Z.of_nat a);
    lia.
Qed.

Lemma parseInt10_digit (c : ascii) (s : string) (v : Z) :
  digitValue c = Some v -> parseInt10 (String c s) = digitsFrom (Some v) s.
Proof.
  destruct c as [[] [] [] [] [] [] [] []]; try discriminate; intros [= <-]; reflexivity.
Qed.

(** A decimal numeral is parsed back to its number. *)
Lemma parseInt10_numberToString (n : nat) :
  parseInt10 (numberToString n) = Some (Z.of_nat n).
Proof.
  unfold numberToString.
  rewrite <- (Unsigned.of_to n) at 2.
  assert (Hnil : Nat.to_uint n <> Decimal.Nil).
  { rewrite <- (Unsigned.of_to n), Unsigned.to_of. apply unorm_nonnil. }
  unfold Nat.of_uint. rewrite <- digitsFrom_uint.
  destruct (Nat.to_uint n) as [| d | d | d | d | d | d | d | d | d | d]; [done | ..];
    cbn [NilEmpty.string_of_uint]; erewrite parseInt10_digit by reflexivity;
    reflexivity.
Qed.

(** X15.  For a message that is fetched and parsed, the index selects by
    position.  A number within the attachments selects the attachment at
    that position: when its file name and its content type can be set as
    headers, the answer is 200 with its content, its content type and its
    file name (the file name [undefined] when it has none); when one of
    them holds a character that no header may hold, the answer is 500
    without the content.  An index that is no number, or a negative one,
    gives 404. *)
Theorem download_selects_by_position {W} (cl : Client W) (S3_BUCKET : string)
    (simpleParser : string -> result Parsed.t) (emailId index rawEmail : string)
    (parsed : Parsed.t) (w w1 : W) :
  emailId <> "" ->
  answer cl (GetObjectCommand S3_BUCKET emailId) w = (Ok rawEmail, w1) ->
  simpleParser rawEmail = Ok parsed ->
  let response :=
    (run cl (downloadAttachment S3_BUCKET simpleParser
               {| DownloadQuery.emailId := Some emailId;
                  DownloadQuery.index := Some index |}) w).1 in
  let notFound :=
    {| status := 404; body := TextBody "Attachment not found at that index." |} in
  (forall position attachment,
      parseInt10 index = Some (Z.of_nat position) ->
      Parsed.attachments parsed !! position = Some attachment ->
      (headerSafe attachment = true ->
       response = fileResponse attachment
       /\ attachmentBytes response = Some (Attachment.content attachment))
      /\ (headerSafe attachment = false ->
          status response = 500 /\ attachmentBytes response = None))
  /\ (parseInt10 index = None -> response = notFound)
  /\ (forall n, parseInt10 index = Some n -> (n < 0)%Z -> response = notFound).
Proof.
  intros Hid Hget Hparse response notFound. unfold response.
  rewrite run_downloadAttachment, Hget by done. cbn [fst snd]. rewrite Hparse.
  split; [| split].
  - intros position attachment -> Hat. unfold arrayGet.
    destruct (Z.leb_spec 0 (Z.of_nat position)); [| lia].
    rewrite Nat2Z.id, Hat. split.
    + intros Hsafe. by rewrite sendAttachment_safe.
    + apply sendAttachment_unsafe.
  - by intros ->.
  - intros n -> Hn. unfold arrayGet. by destruct (Z.leb_spec 0 n); [lia |].
Qed.

Lemma download_selects_by_position_witness :
  (run Sample.client
       (downloadAttachment Sample.bucket Sample.parser
          {| DownloadQuery.emailId := Some "key2"; DownloadQuery.index := Some "0" |})
       Sample.world).1
  = fileResponse Sample.report.
Proof.
  refine (proj1 (proj1 (proj1 (download_selects_by_position Sample.client Sample.bucket
                                 Sample.parser "key2" "0" "with report" _ Sample.world
                                 Sample.world _ eq_refl eq_refl)
                          0 Sample.report eq_refl eq_refl) eq_refl)).
  discriminate.
Defined.

(** X16.  The index a listing shows for an attachment is the handle that
    selects it for a download: for every attachment entry of a listed
    message, a download with the id of the message and the decimal numeral
    of the entry's index selects an attachment that has the file name and
    the size of the entry, and answers 200 with it when its file name and
    content type can be set as headers, and 500 without its content
    otherwise. *)
Theorem listed_index_downloads {W} (cl : Client W) (S3_BUCKET : string)
    (simpleParser : string -> result Parsed.t) (obj : S3Object.t) (rawEmail : string)
    (parsed : Parsed.t) (entry : AttachmentInfo.t) (w w1 : W) :
  S3Object.Key obj <> "" ->
  answer cl (GetObjectCommand S3_BUCKET (S3Object.Key obj)) w = (Ok rawEmail, w1) ->
  simpleParser rawEmail = Ok parsed ->
  let email := toEmail obj parsed in
  entry ∈ Email.attachments email ->
  let response :=
    (run cl (downloadAttachment S3_BUCKET simpleParser
               {| DownloadQuery.emailId := Some (Email.id email);
                  DownloadQuery.index :=
                    Some (numberToString (AttachmentInfo.index entry)) |}) w).1 in
  exists attachment,
    Parsed.attachments parsed !! AttachmentInfo.index entry = Some attachment
    /\ Attachment.filename attachment = AttachmentInfo.filename entry
    /\ Attachment.size attachment = AttachmentInfo.size entry
    /\ (headerSafe attachment = true -> response = fileResponse attachment)
    /\ (headerSafe attachment = false ->
        status response = 500 /\ attachmentBytes response = None).
Proof.
  intros Hid Hget Hparse email Hentry response.
  unfold email, toEmail in Hentry. cbn [Email.attachments] in Hentry.
  apply elem_of_lookup_imap_1 in Hentry as (i & attachment & -> & Hat).
  exists attachment. cbn [AttachmentInfo.index AttachmentInfo.filename AttachmentInfo.size].
  split; [done |]. split; [done |]. split; [done |].
  unfold response. cbn [email toEmail Email.id AttachmentInfo.index].
  rewrite run_downloadAttachment, Hget by done. cbn [fst snd].
  rewrite Hparse, parseInt10_numberToString. unfold arrayGet.
  destruct (Z.leb_spec 0 (Z.of_nat i)); [| lia]. rewrite Nat2Z.id, Hat.
  split; [apply sendAttachment_safe | apply sendAttachment_unsafe].
Qed.

Lemma listed_index_downloads_witness :
  (run Sample.client
       (downloadAttachment Sample.bucket Sample.parser
          {| DownloadQuery.emailId := Some "key2";
             DownloadQuery.index := Some (numberToString 0) |})
       Sample.world).1
  = fileResponse Sample.report.
Proof.
  destruct (listed_index_downloads Sample.client Sample.bucket Sample.parser
              (S3Object.mk "key2" 11 7) "with report"
              {| Parsed.text := Some "with report"; Parsed.html := None;
                 Parsed.textAsHtml := None; Parsed.from := Some "ann@example.org";
                 Parsed.to := None; Parsed.subject := Some "Report";
                 Parsed.date := None; Parsed.headers := ∅;
                 Parsed.attachments := [Sample.report] |}
              {| AttachmentInfo.filename := Some "report.pdf";
                 AttachmentInfo.size := 4; AttachmentInfo.index := 0 |}
              Sample.world Sample.world) as (attachment & Hat & _ & _ & Hrun & _).
  - discriminate.
  - reflexivity.
  - reflexivity.
  - apply list_elem_of_In. simpl. tauto.
  - injection Hat as <-. exact (Hrun eq_refl).
Defined.

(** X17.  Whatever the query and the clients, the download route sends at
    most the one get of the message; without a message id or without an
    index it answers 400 and sends nothing; when the message cannot be
    fetched or parsed it answers 500; when it is fetched and parsed, the
    answer is 404, or 200 with an attachment of the message, or 500
    because the file name or the content type of the selected attachment
    cannot be set as a header; and a response carries attachment bytes
    only with status 200, the bytes being the content of an attachment of
    the message that was fetched and parsed. *)
Theorem download_outcomes {W} (cl : Client W) (S3_BUCKET : string)
    (simpleParser : string -> result Parsed.t) (query : DownloadQuery.t) (w : W) :
  let route := downloadAttachment S3_BUCKET simpleParser query in
  let response := (run cl route w).1 in
  (DownloadQuery.index query = None \/ JS.truthy (DownloadQuery.emailId query) = false ->
   route = Ret {| status := 400; body := TextBody "Missing email ID or attachment index." |})
  /\ (forall emailId index,
        DownloadQuery.emailId query = Some emailId -> emailId <> "" ->
        DownloadQuery.index query = Some index ->
        trace cl route w = [call (GetObjectCommand S3_BUCKET emailId)]
        /\ (forall rawEmail parsed,
              (answer cl (GetObjectCommand S3_BUCKET emailId) w).1 = Ok rawEmail ->
              simpleParser rawEmail = Ok parsed ->
              response
              = {| status := 404; body := TextBody "Attachment not found at that index." |}
              \/ exists attachment,
                   attachment ∈ Parsed.attachments parsed
                   /\ (headerSafe attachment = true /\ response = fileResponse attachment
                       \/ headerSafe attachment = false /\ status response = 500))
        /\ ((forall rawEmail,
               (answer cl (GetObjectCommand S3_BUCKET emailId) w).1 = Ok rawEmail ->
               isOk (simpleParser rawEmail) = false) ->
            response
            = {| status := 500; body := TextBody "Could not download attachment." |}))
  /\ (forall bytes,
        attachmentBytes response = Some bytes ->
        status response = 200
        /\ exists emailId rawEmail parsed attachment,
             DownloadQuery.emailId query = Some emailId
             /\ (answer cl (GetObjectCommand S3_BUCKET emailId) w).1 = Ok rawEmail
             /\ simpleParser rawEmail = Ok parsed
             /\ attachment ∈ Parsed.attachments parsed
             /\ headerSafe attachment = true
             /\ Attachment.content attachment = bytes).
Proof.
  cbn zeta. destruct query as [[emailId |] [index |]]; cbn [DownloadQuery.index
    DownloadQuery.emailId].
  2, 3, 4: by (split; [done |]; split; [done |]; unfold downloadAttachment;
               cbn [DownloadQuery.index DownloadQuery.emailId JS.truthy]).
  destruct (decide (emailId = "")) as [-> | Hid].
  { split; [done |]. split; [by intros ? ? [= <-] |]. done. }
  assert (Hin : forall (parsed : Parsed.t) attachment,
             arrayGet (Parsed.attachments parsed) (parseInt10 index) = Some attachment ->
             attachment ∈ Parsed.attachments parsed).
  { intros parsed attachment Hat. unfold arrayGet in Hat.
    destruct (parseInt10 index) as [n |]; [| done].
    destruct (0 <=? n)%Z; [| done]. by eapply list_elem_of_lookup_2. }
  split; [| split].
  - intros [H | H]; [done |]. by destruct emailId.
  - intros ? ? [= <-] _ [= <-].
    rewrite trace_downloadAttachment, run_downloadAttachment by done. cbn [fst snd].
    split; [done |]. split.
    + intros rawEmail parsed -> ->.
      destruct (arrayGet _ _) as [attachment |] eqn:Hat; [right | by left].
      exists attachment. split; [by eapply Hin |].
      destruct (headerSafe attachment) eqn:Hsafe.
      * left. split; [done |]. by apply sendAttachment_safe.
      * right. split; [done |]. by apply sendAttachment_unsafe.
    + intros Hbad. destruct (answer cl _ w).1 as [rawEmail |]; [| done].
      specialize (Hbad rawEmail eq_refl). by destruct (simpleParser rawEmail).
  - intros bytes. rewrite run_downloadAttachment by done. cbn [fst snd].
    destruct (answer cl _ w).1 as [rawEmail |] eqn:Hget; [| done].
    destruct (simpleParser rawEmail) as [parsed |] eqn:Hparse; [| done].
    destruct (arrayGet _ _) as [attachment |] eqn:Hat; [| done].
    intros [Hsafe Hbytes]%sendAttachment_bytes.
    rewrite sendAttachment_safe by done. split; [done |].
    exists emailId, rawEmail, parsed, attachment. repeat split; try done.
    by eapply Hin.
Qed.

Lemma download_outcomes_witness :
  status (run Sample.client
            (downloadAttachment Sample.bucket Sample.parser
               {| DownloadQuery.emailId := Some "key2"; DownloadQuery.index := Some "0" |})
            Sample.world).1 = 200.
Proof.
  refine (proj1 (proj2 (proj2 (download_outcomes Sample.client Sample.bucket Sample.parser
                                 {| DownloadQuery.emailId := Some "key2";
                                    DownloadQuery.index := Some "0" |} Sample.world))
                   "%PDF" eq_refl)).
Defined.


Lemma recipients_are_the_fields_witness :
  CcAddresses (sendEmailInput Sample.request) = [].
Proof.
  exact (proj1 (proj2 (proj2 (proj2 (proj2 (proj2
           (recipients_are_the_fields Sample.request)))))) eq_refl).
Defined.

Lemma trash_key_is_flat_witness :
  trashKey (trashKey "sent/mid1") = trashKey "sent/mid1".
Proof.
  destruct (trash_key_is_flat "sent/mid1") as (name & Hkey & _ & Hfix).
  apply Hfix. intros ->. vm_compute in Hkey. discriminate Hkey.
Defined.

(** ** The derived text, once more *)
Lemma tagFree_suffix (pre t : string) : tagFree (pre +:+ t) = true -> tagFree t = true.
Proof.
  induction pre as [| c pre IH]; [done |]. rewrite append_cons. cbn [tagFree].
  intros [_ H]%andb_true_iff. by apply IH.
Qed.

Lemma tagFree_no_tag (k : JS.Matcher) (inner s : string) :
  tagFree s = true ->
  JS.m_lit (String "<" inner) (JS.m_star JS.notGt (JS.m_lit ">" k)) s = None.
Proof.
  intros Hfree.
  destruct (JS.m_lit _ _ s) as [n |] eqn:E; [| done].
  apply m_lit_Some in E as (t1 & n1 & -> & (pre & t2 & n2 & -> & E)%m_star_Some & _).
  apply m_lit_Some in E as (t3 & n3 & -> & _).
  rewrite append_cons in Hfree. cbn [tagFree] in Hfree.
  apply andb_true_iff in Hfree as [Hfree _]. simpl in Hfree.
  apply negb_true_iff in Hfree.
  rewrite <- append_assoc in Hfree. by rewrite contains_middle in Hfree.
Qed.

Lemma tagFree_unchanged (m : JS.Matcher) (rep s : string) :
  (forall t, tagFree t = true -> m t = None) ->
  tagFree s = true -> JS.replaceAll m rep s = s.
Proof.
  intros Hm Hs. apply replace_no_match. intros pre t ->.
  by apply Hm, (tagFree_suffix pre).
Qed.

Lemma singleSpaced_unchanged (s : string) :
  singleSpaced s = true -> collapseSpaces s = s.
Proof.
  unfold collapseSpaces, JS.replaceAll.
  induction s as [| c s IH]; [done |]. cbn [singleSpaced JS.replace_from].
  intros [Hc Hs]%andb_true_iff. cbn [JS.re_spaces JS.m_plus].
  destruct (JS.isWhiteSpace c) eqn:E.
  - apply andb_true_iff in Hc as [->%Ascii.eqb_eq Hclean].
    rewrite m_star_ws. cbn [fmap option_fmap option_map].
    assert (wsRun s = 0) as ->.
    { destruct s as [| d s]; [done |]. simpl in *.
      by destruct (JS.isWhiteSpace d). }
    change (" " +:+ ?x) with (String " " x). by rewrite IH.
  - by rewrite IH.
Qed.

Lemma trim_unchanged (s : string) :
  startsClean s = true -> endsClean s = true -> JS.trim s = s.
Proof.
  unfold JS.trim. intros Hstart Hend.
  assert (JS.trimStart s = s) as ->.
  { destruct s as [| c s]; [done |]. simpl in *. by destruct (JS.isWhiteSpace c). }
  clear Hstart. induction s as [| c s IH]; [done |]. cbn [JS.trimEnd].
  destruct s as [| d s].
  - simpl in *. by destruct (JS.isWhiteSpace c).
  - rewrite IH by done. done.
Qed.

(** X18.  Deriving the text is a normalisation: a text without tags whose
    white space is single spaces between other characters is left as it
    is, and so the text derived from any HTML body is not changed by
    deriving again. *)
Theorem htmlToText_idempotent (html : string) :
  htmlToText (htmlToText html) = htmlToText html
  /\ forall text,
       tagFree text = true -> singleSpaced text = true ->
       startsClean text = true -> endsClean text = true ->
       htmlToText text = text.
Proof.
  assert (Hfixed : forall text,
             tagFree text = true -> singleSpaced text = true ->
             startsClean text = true -> endsClean text = true ->
             htmlToText text = text).
  { intros text Htags Hspaces Hstart Hend. unfold htmlToText.
    unfold stripStyle, stripScript, stripTags.
    rewrite (tagFree_unchanged JS.re_style) by (done || apply tagFree_no_tag).
    rewrite (tagFree_unchanged JS.re_script) by (done || apply tagFree_no_tag).
    rewrite (tagFree_unchanged JS.re_tag)
      by (done || intros t Ht; apply (tagFree_no_tag JS.m_end "" t Ht)).
    rewrite singleSpaced_unchanged by done. by apply trim_unchanged. }
  split; [| done].
  destruct (htmlToText_clean html) as (? & ? & ? & ?). by apply Hfixed.
Qed.

Lemma htmlToText_idempotent_witness : htmlToText "a < b, see you" = "a < b, see you".
Proof.
  refine (proj2 (htmlToText_idempotent "") "a < b, see you" _ _ _ _); reflexivity.
Defined.

(** ** Folders of the store in memory *)
Lemma listObjects_keys (prefix : string) (delimiter : option string) (w : Mem.World)
    (obj : S3Object.t) :
  obj ∈ default [] (Contents (Mem.listObjects prefix delimiter w)) ->
  Mem.listed prefix delimiter (S3Object.Key obj) = true
  /\ exists o, Mem.objects w !! S3Object.Key obj = Some o
               /\ S3Object.Size obj = Z.of_nat (String.length (Mem.Body o)).
Proof.
  unfold Mem.listObjects.
  set (all := omap _ (map_to_list (Mem.objects w))).
  intros Hin.
  assert (Hall : obj ∈ all).
  { rewrite <- (js_sort_perm Mem.byKey), <- (take_drop 1000 (js_sort _ _)).
    apply elem_of_app. left. by destruct (take 1000 _). }
  apply list_elem_of_omap in Hall as ([key o] & Hkv & Hobj).
  apply elem_of_map_to_list in Hkv.
  destruct (Mem.listed prefix delimiter key) eqn:E; [| done].
  injection Hobj as <-. cbn [S3Object.Key S3Object.Size]. split; [done |]. by exists o.
Qed.

Lemma index_none_contains (rest : string) :
  String.index 0 "/" rest = None -> contains "/" rest = false.
Proof.
  induction rest as [| c rest IH]; [done |].
  rewrite contains_char_cons. cbn [String.index String.prefix].
  destruct (ascii_dec "/" c) as [<- | Hne]; [by destruct rest |].
  destruct (String.index 0 "/" rest); [done |]. intros _.
  rewrite IH by done. by destruct (Ascii.eqb_spec "/" c).
Qed.

Lemma listed_startsWith (prefix : string) (delimiter : option string) (key : string) :
  Mem.listed prefix delimiter key = true ->
  exists rest, key = prefix +:+ rest
               /\ (delimiter = Some "/" -> contains "/" rest = false).
Proof.
  unfold Mem.listed.
  assert (Hstrip : forall p s r, Mem.stripPrefix p s = Some r -> s = p +:+ r).
  { induction p as [| c p IH]; intros s r; cbn [Mem.stripPrefix]; [by intros [= ->] |].
    destruct s as [| d s]; [done |]. destruct (Ascii.eqb_spec c d) as [<- |]; [| done].
    intros H. by rewrite (IH _ _ H). }
  destruct (Mem.stripPrefix prefix key) as [rest |] eqn:E; [| done].
  intros H. exists rest. split; [by apply Hstrip |]. intros ->.
  apply negb_true_iff, bool_decide_eq_false in H.
  apply index_none_contains.
  destruct (String.index 0 "/" rest) eqn:Hi; [| done]. exfalso. apply H. by eexists.
Qed.

Lemma mem_get_keeps_world (f : Mem.Faults) (bucket Bucket key : string) (w : Mem.World) :
  (answer (Mem.client f bucket) (GetObjectCommand Bucket key) w).2 = w.
Proof.
  cbn [answer Mem.client]. destruct (Mem.rejects f _ _); [done |].
  cbn [Mem.perform]. unfold Mem.inBucket.
  destruct (String.eqb Bucket bucket); [| done]. by destruct (Mem.objects w !! key).
Qed.

Lemma mem_fetch_keeps_world (f : Mem.Faults) (bucket : string)
    (simpleParser : string -> result Parsed.t) (objs : list S3Object.t) (w : Mem.World) :
  (run (Mem.client f bucket) (mapAsync (fetchEmail bucket simpleParser) objs) w).2 = w.
Proof.
  induction objs as [| obj objs IH]; [done |].
  rewrite run_mapAsync_cons. cbn [snd]. rewrite run_fetchEmail. cbn [snd].
  by rewrite mem_get_keeps_world.
Qed.

(** What a view of a folder of the store in memory shows. *)
Lemma listed_emails_are_keys (f : Mem.Faults) (bucket : string)
    (simpleParser : string -> result Parsed.t) (prefix : string) (w w' : Mem.World)
    (view : MailboxView) (email : Email.t) :
  run (Mem.client f bucket) (getEmailsFromS3 bucket simpleParser prefix) w = (Ok view, w') ->
  email ∈ emails view ->
  w' = w
  /\ exists rest o,
       Email.id email = prefix +:+ rest
       /\ rest <> ""
       /\ (prefix = "" -> contains "/" rest = false)
       /\ Mem.objects w !! Email.id email = Some o
       /\ Mem.Body o <> "".
Proof.
  rewrite run_getEmailsFromS3. unfold listCommand at 1. cbn [answer Mem.client].
  destruct (Mem.rejects f _ _); [done |]. cbn [Mem.perform]. rewrite inBucket_same.
  cbn zeta. rewrite mem_fetch_keeps_world.
  set (delimiter := if String.eqb prefix INBOX_PREFIX then Some "/" else None).
  set (contents := default [] (Contents (Mem.listObjects prefix delimiter w))).
  destruct (promiseAll _) as [es |] eqn:Hall; [| done].
  intros [= <- <-] Hin. split; [done |]. cbn [emails] in Hin.
  apply promiseAll_Ok in Hall.
  pose proof (fetched_ids (Mem.client f bucket) bucket simpleParser
                (selectObjects prefix contents) w) as Hids.
  rewrite Hall in Hids. apply resolved_ids in Hids.
  assert (Hkey : Email.id email ∈ List.map S3Object.Key (selectObjects prefix contents)).
  { rewrite <- Hids. apply list_elem_of_fmap. by exists email. }
  apply list_elem_of_fmap in Hkey as (obj & Hid & Hobj).
  apply selectObjects_elem in Hobj as [Hobj [Hmarker Hsize]].
  apply listObjects_keys in Hobj as [Hlisted (o & Ho & Hlen)].
  apply listed_startsWith in Hlisted as (rest & Hrest & Hdelim).
  exists rest, o. rewrite Hid. repeat split; try done.
  - intros ->. apply Hmarker. by rewrite Hrest, append_empty_r.
  - intros ->. apply Hdelim. done.
  - intros Hbody. rewrite Hbody in Hlen. simpl in Hlen. lia.
Qed.

(** X19.  The folders partition the store in memory: a view shows only
    ids that are keys of the store under the prefix of the folder, never
    the prefix itself and never an object without bytes; the view of the
    inbox shows no key with a separator, so nothing of the sent or trash
    folder; and a listing leaves the store as it is. *)
Theorem folder_view_shows_its_folder (f : Mem.Faults) (bucket : string)
    (simpleParser : string -> result Parsed.t) (prefix : string) (w w' : Mem.World)
    (view : MailboxView) :
  run (Mem.client f bucket) (getEmailsFromS3 bucket simpleParser prefix) w = (Ok view, w') ->
  w' = w
  /\ forall email, email ∈ emails view ->
       exists rest o,
         Email.id email = prefix +:+ rest
         /\ rest <> ""
         /\ (prefix = "" -> contains "/" rest = false)
         /\ Mem.objects w !! Email.id email = Some o
         /\ Mem.Body o <> "".
Proof.
  intros Hrun. split.
  - revert Hrun. rewrite run_getEmailsFromS3. unfold listCommand. cbn [answer Mem.client].
    destruct (Mem.rejects f _ _); [done |]. cbn [Mem.perform]. rewrite inBucket_same.
    cbn zeta. rewrite mem_fetch_keeps_world. by destruct (promiseAll _); intros [= <- <-].
  - intros email Hin. by destruct (listed_emails_are_keys _ _ _ _ _ _ _ _ Hrun Hin).
Qed.

Lemma folder_view_shows_its_folder_witness :
  (run Sample.client (getEmailsFromS3 Sample.bucket Sample.parser "sent/") Sample.world).2
  = Sample.world.
Proof.
  refine (proj1 (folder_view_shows_its_folder Mem.noFaults Sample.bucket Sample.parser
                   "sent/" Sample.world _
                   {| emails := [toEmail (S3Object.mk "sent/mid1" 5 9) (Sample.plain "first");
                                 toEmail (S3Object.mk "sent/mid2" 6 4)
                                   (Sample.plain "second")];
                      totalCount := 2 |} _)).
  vm_compute. reflexivity.
Defined.

(** X20.  A message that was moved to the trash is not listed under its
    old id any more, in no folder: after a move of an id that the route
    reported as done, no view of the store shows that id, unless the id is
    its own trash key. *)
Theorem moved_message_is_not_listed (f f' : Mem.Faults) (bucket : string)
    (simpleParser : string -> result Parsed.t) (id prefix : string)
    (w w1 w2 : Mem.World) (r : Response) (view : MailboxView) :
  trashKey id <> id ->
  run (Mem.client f bucket) (moveToTrash bucket (Some [id])) w = (r, w1) ->
  status r = 200 ->
  run (Mem.client f' bucket) (getEmailsFromS3 bucket simpleParser prefix) w1
    = (Ok view, w2) ->
  id ∉ List.map Email.id (emails view).
Proof.
  intros Hne Hmove Hdone Hlist Hin.
  destruct (move_to_trash_moves _ _ _ _ _ _ Hne Hmove Hdone) as [Hgone _].
  apply list_elem_of_fmap in Hin as (email & -> & Hin).
  destruct (listed_emails_are_keys _ _ _ _ _ _ _ _ Hlist Hin)
    as (_ & rest & o & _ & _ & _ & Ho & _).
  congruence.
Qed.

Lemma moved_message_is_not_listed_witness :
  let moved := run Sample.client (moveToTrash Sample.bucket (Some ["key1"])) Sample.world in
  exists view,
    (run Sample.client (getEmailsFromS3 Sample.bucket Sample.parser "") moved.2).1 = Ok view
    /\ "key1" ∉ List.map Email.id (emails view).
Proof.
  cbn zeta. eexists. split; [vm_compute; reflexivity |].
  eapply (moved_message_is_not_listed Mem.noFaults Mem.noFaults Sample.bucket
            Sample.parser "key1" "" Sample.world).
  - vm_compute. discriminate.
  - apply surjective_pairing.
  - vm_compute. reflexivity.
  - vm_compute. reflexivity.
Defined.

Lemma removeAll_lookup (f : Mem.Faults) (ids : list string) (w : Mem.World) (key : string) :
  Mem.objects (Mem.removeAll f ids w) !! key
  = if bool_decide (key ∈ ids) && Mem.removable f key then None else Mem.objects w !! key.
Proof.
  unfold Mem.removeAll. induction ids as [| id ids IH]; [done |].
  cbn [List.filter]. destruct (decide (key = id)) as [-> | Hne].
  - rewrite bool_decide_eq_true_2 by (by left). cbn [andb].
    destruct (Mem.removable f id) eqn:E.
    + cbn [foldr Mem.remove Mem.objects]. apply lookup_delete_eq.
    + rewrite IH, ?E. by rewrite andb_false_r.
  - assert (bool_decide (key ∈ id :: ids) = bool_decide (key ∈ ids)) as ->.
    { apply bool_decide_ext. rewrite elem_of_cons. split; [by intros [? | ?] | by right]. }
    destruct (Mem.removable f id); [| done].
    cbn [foldr Mem.remove Mem.objects]. by rewrite lookup_delete_ne.
Qed.

(** X21.  After a permanent delete that the route reported as done, the
    store holds none of the ids it could remove and every other object
    as before, also ids that were not there in the first place; none of
    the removed ids shows up in a later view. *)
Theorem deleted_messages_are_gone (f f' : Mem.Faults) (bucket : string)
    (simpleParser : string -> result Parsed.t) (emailIds : list string)
    (w w1 : Mem.World) (r : Response) :
  run (Mem.client f bucket) (deletePermanently bucket (Some emailIds)) w = (r, w1) ->
  status r = 200 ->
  (forall key,
      Mem.objects w1 !! key
      = if bool_decide (key ∈ emailIds) && Mem.removable f key
        then None else Mem.objects w !! key)
  /\ forall prefix view w2 id,
       run (Mem.client f' bucket) (getEmailsFromS3 bucket simpleParser prefix) w1
         = (Ok view, w2) ->
       id ∈ emailIds -> Mem.removable f id = true ->
       id ∉ List.map Email.id (emails view).
Proof.
  intros Hrun Hdone.
  assert (Hstore : forall key,
             Mem.objects w1 !! key
             = if bool_decide (key ∈ emailIds) && Mem.removable f key
               then None else Mem.objects w !! key).
  { destruct emailIds as [| id ids].
    { injection Hrun as <- <-. done. }
    revert Hrun. unfold deletePermanently. rewrite run_bind, run_send.
    cbn [answer Mem.client].
    destruct (Mem.rejects f _ _); [intros [= <- <-]; done |].
    cbn [Mem.perform]. rewrite inBucket_same. cbn [fst snd run].
    intros [= <- <-]. apply removeAll_lookup. }
  split; [done |].
  intros prefix view w2 id Hlist Hid Hremovable Hin.
  apply list_elem_of_fmap in Hin as (email & -> & Hin).
  destruct (listed_emails_are_keys _ _ _ _ _ _ _ _ Hlist Hin)
    as (_ & rest & o & _ & _ & _ & Ho & _).
  rewrite Hstore, bool_decide_eq_true_2, Hremovable in Ho by done. done.
Qed.

Lemma deleted_messages_are_gone_witness :
  let deleted :=
    run Sample.client
      (deletePermanently Sample.bucket (Some ["sent/mid1"; "sent/nothing"])) Sample.world in
  Mem.objects deleted.2 !! "sent/mid1" = None
  /\ Mem.objects deleted.2 !! "sent/mid2" = Mem.objects Sample.world !! "sent/mid2".
Proof.
  cbn zeta.
  pose proof (deleted_messages_are_gone Mem.noFaults Mem.noFaults Sample.bucket
                Sample.parser ["sent/mid1"; "sent/nothing"] Sample.world _ _
                (surjective_pairing _) eq_refl) as [H _].
  split; [exact (H "sent/mid1") | exact (H "sent/mid2")].
Defined.

(** ** Who gets to dispatch *)

(** X22.  The route sends a message to the outbound service exactly for
    the requests that have all four required fields and a [from] on the
    list of allowed senders; the message is then dispatched in the name
    of that same address, as the first command of the route. *)
Theorem dispatch_only_for_listed_senders {W} (cl : Client W) (S3_BUCKET : string)
    (req : SendEmailRequest.t) (w : W) :
  let from := default "" (SendEmailRequest.from req) in
  (trace cl (sendEmail S3_BUCKET req) w <> []
   <-> missingFields req = false /\ from ∈ getVerifiedSenders)
  /\ forall c : Call, c ∈ trace cl (sendEmail S3_BUCKET req) w ->
       from ∈ getVerifiedSenders
       /\ exists first rest,
            trace cl (sendEmail S3_BUCKET req) w = call (SendEmailCommand first) :: rest
            /\ FromEmailAddress first = from.
Proof.
  cbn zeta.
  destruct (missingFields req) eqn:Hfields.
  { assert (sendEmail S3_BUCKET req
            = Ret {| status := 400; body := JsonMessage "Missing required fields" |}) as ->
      by (unfold sendEmail; by rewrite Hfields).
    cbn [trace]. split; [split; [done | by intros [? _]] |].
    by intros c ?%elem_of_nil. }
  destruct (includes getVerifiedSenders (default "" (SendEmailRequest.from req)))
    eqn:Hallowed.
  - rewrite trace_sendEmail by done. apply includes_spec in Hallowed.
    split; [split; [done | discriminate] |].
    intros c _. split; [done |]. by eexists _, _.
  - assert (Hnot : default "" (SendEmailRequest.from req) ∉ getVerifiedSenders).
    { intros H%includes_spec. congruence. }
    assert (trace cl (sendEmail S3_BUCKET req) w = []) as ->
      by (unfold sendEmail; by rewrite Hfields, Hallowed).
    split; [split; [done | by intros [_ ?]] |].
    by intros c ?%elem_of_nil.
Qed.

Lemma dispatch_only_for_listed_senders_witness :
  trace Sample.client (sendEmail Sample.bucket Sample.request) Sample.world <> [].
Proof.
  apply (proj1 (dispatch_only_for_listed_senders Sample.client Sample.bucket
                  Sample.request Sample.world)).
  split; [reflexivity |]. apply list_elem_of_In. simpl. tauto.
Defined.
